(** * Trees-1: reconstruction of a binary tree from its preorder and inorder
      traversals, and validation of the binary-search-tree ordering.

    Shallow embedding of [binaryTreeFromPreInOrderTraversal.py] and
    [isValidBst.py].  Python integers are unbounded, so keys, indices and
    bounds are [Z]; the dictionary is a [gmap Z Z]; the attribute
    [self.preorder_idx] is a field of an explicit [Solution] state that is
    threaded through every call; raised exceptions are values of [exn]. *)

From stdpp Require Import gmap list sorting.
From Stdlib Require Import ZArith Lia.

Local Open Scope Z_scope.

(** ** Data model *)

(** [class TreeNode]: [Empty] is Python's [None], [TreeNode val left right]
    an object whose two child slots hold the given subtrees. *)
Inductive tree : Type :=
| Empty : tree
| TreeNode (val : Z) (left right : tree) : tree.

Fixpoint preorder (t : tree) : list Z :=
  match t with
  | Empty => []
  | TreeNode v l r => v :: preorder l ++ preorder r
  end.

Fixpoint inorder (t : tree) : list Z :=
  match t with
  | Empty => []
  | TreeNode v l r => inorder l ++ v :: inorder r
  end.

Fixpoint size (t : tree) : nat :=
  match t with
  | Empty => O
  | TreeNode _ l r => S (size l + size r)
  end.

Fixpoint height (t : tree) : nat :=
  match t with
  | Empty => O
  | TreeNode _ l r => S (Nat.max (height l) (height r))
  end.

(** [subtree s t]: [s] is [t] or hangs below one of the nodes of [t]. *)
Inductive subtree (s : tree) : tree -> Prop :=
| subtree_here : subtree s s
| subtree_left v l r : subtree s l -> subtree s (TreeNode v l r)
| subtree_right v l r : subtree s r -> subtree s (TreeNode v l r).

(** The ordering a binary search tree has: at every node, every key of the
    left subtree is strictly below the node's key and every key of the right
    subtree strictly above it. *)
Definition bst_ordered (t : tree) : Prop :=
  forall v l r, subtree (TreeNode v l r) t ->
    (forall x, x ∈ inorder l -> x < v) /\ (forall x, x ∈ inorder r -> v < x).

(** The same ordering, by recursion on the tree. *)
Fixpoint bst_rec (t : tree) : Prop :=
  match t with
  | Empty => True
  | TreeNode v l r =>
      (forall x, x ∈ inorder l -> x < v) /\ (forall x, x ∈ inorder r -> v < x)
      /\ bst_rec l /\ bst_rec r
  end.

(** ** isValidBst.py *)

Module Validator.

(** The values [low] and [high] range over: [float('-inf')], a key, or
    [float('inf')]. *)
Inductive bound : Type :=
| NegInf : bound
| Fin (z : Z) : bound
| PosInf : bound.

(** Python's [<] between such values. *)
Definition bound_ltb (a b : bound) : bool :=
  match a, b with
  | NegInf, NegInf => false
  | NegInf, _ => true
  | Fin x, Fin y => x <? y
  | Fin _, PosInf => true
  | Fin _, NegInf => false
  | PosInf, _ => false
  end.

Fixpoint helper (node : tree) (low high : bound) : bool :=
  match node with
  | Empty => true
  | TreeNode val l r =>
      if negb (bound_ltb low (Fin val) && bound_ltb (Fin val) high)
      then false
      else helper l low (Fin val) && helper r (Fin val) high
  end.

Definition isValidBST (root : tree) : bool := helper root NegInf PosInf.

(** Every key of [t] lies strictly between [low] and [high]. *)
Definition within (low high : bound) (t : tree) : Prop :=
  forall x, x ∈ inorder t ->
    bound_ltb low (Fin x) = true /\ bound_ltb (Fin x) high = true.

(** The tree of the negative case: root 5, left child 1, right child 4
    whose left child is 3. *)
Definition tree_5_1_4_3 : tree :=
  TreeNode 5 (TreeNode 1 Empty Empty)
             (TreeNode 4 (TreeNode 3 Empty Empty) Empty).

(** Comparing every node with its two children only. *)
Definition root_key (t : tree) : option Z :=
  match t with
  | Empty => None
  | TreeNode v _ _ => Some v
  end.

Fixpoint children_ordered (t : tree) : bool :=
  match t with
  | Empty => true
  | TreeNode v l r =>
      match root_key l with Some x => x <? v | None => true end
      && match root_key r with Some x => v <? x | None => true end
      && children_ordered l && children_ordered r
  end.

End Validator.

(** ** binaryTreeFromPreInOrderTraversal.py *)

Module Builder.

(** The exceptions the three constructions can raise. *)
Inductive exn : Type :=
| IndexError      (* a list index out of range, also [stack[-1]] *)
| KeyError        (* a dictionary lookup of an absent key *)
| ValueError      (* [list.index] of an absent value *)
| AttributeError. (* a read of [self.preorder_idx] before it was set *)

(** What a call does: it returns a value or raises.  [Stuck] is the model's
    own: the recursion fuel ran out or a reference points outside the heap.
    No execution of the program ends there, on any input:
    [buildTree_fuel_stable], [buildTree_v2_fuel_stable] and
    [buildTree_v3_not_stuck]. *)
Inductive outcome (A : Type) : Type :=
| Return (a : A)
| Raise (e : exn)
| Stuck.
Arguments Return {A} a.
Arguments Raise {A} e.
Arguments Stuck {A}.

Definition obind {A B} (o : outcome A) (k : A -> outcome B) : outcome B :=
  match o with
  | Return a => k a
  | Raise e => Raise e
  | Stuck => Stuck
  end.

(** The [Solution] instance: its only attribute is the cursor into
    [preorder]; [None] before the first assignment to it. *)
Record Solution : Type := mkSolution { preorder_idx : option Z }.

(** A method body: from the instance's state to an outcome and the state
    the instance is left in (also when the body raises). *)
Definition M (A : Type) : Type := Solution -> outcome A * Solution.

Definition ret {A} (a : A) : M A := fun s => (Return a, s).
Definition lift {A} (o : outcome A) : M A := fun s => (o, s).
Definition bind {A B} (c : M A) (k : A -> M B) : M B :=
  fun s =>
    match c s with
    | (Return a, s') => k a s'
    | (Raise e, s') => (Raise e, s')
    | (Stuck, s') => (Stuck, s')
    end.

Notation "'let!' x ':=' c 'in' k" := (bind c (fun x => k))
  (at level 10, x pattern, c at level 100, k at level 200).

(** [self.preorder_idx] read and written. *)
Definition get_preorder_idx : M Z :=
  fun s =>
    match preorder_idx s with
    | Some i => (Return i, s)
    | None => (Raise AttributeError, s)
    end.

Definition set_preorder_idx (i : Z) : M unit :=
  fun _ => (Return tt, mkSolution (Some i)).

(** [l[i]] on a Python list: a negative index counts from the end. *)
Definition getitem (l : list Z) (i : Z) : outcome Z :=
  let n := Z.of_nat (length l) in
  let j := if i <? 0 then i + n else i in
  if (j <? 0) || (n <=? j) then Raise IndexError
  else match l !! Z.to_nat j with
       | Some x => Return x
       | None => Raise IndexError
       end.

(** [enumerate(l)], counting from [i]. *)
Fixpoint enumerate_from (i : Z) (l : list Z) : list (Z * Z) :=
  match l with
  | [] => []
  | x :: l' => (i, x) :: enumerate_from (i + 1) l'
  end.

(** [{val: idx for idx, val in enumerate(inorder)}]: entries are stored in
    list order, a later one replacing an earlier one with the same key. *)
Definition store (m : gmap Z Z) (p : Z * Z) : gmap Z Z := <[p.2 := p.1]> m.

Definition index_map (inorder : list Z) : gmap Z Z :=
  foldl store ∅ (enumerate_from 0 inorder).

(** [d[k]] on a dictionary. *)
Definition dict_getitem (d : gmap Z Z) (k : Z) : outcome Z :=
  match d !! k with
  | Some i => Return i
  | None => Raise KeyError
  end.

(** *** Approach 1: recursive with hashmap *)

Fixpoint _build_recursive (fuel : nat) (preorder : list Z)
    (inorder_index_map : gmap Z Z) (left_bound right_bound : Z) : M tree :=
  match fuel with
  | O => lift Stuck
  | S fuel' =>
      if left_bound >? right_bound then ret Empty
      else
        let! i := get_preorder_idx in
        let! root_val := lift (getitem preorder i) in
        let! j := get_preorder_idx in
        let! _ := set_preorder_idx (j + 1) in
        let! root_inorder_idx :=
          lift (dict_getitem inorder_index_map root_val) in
        let! l := _build_recursive fuel' preorder inorder_index_map
               left_bound (root_inorder_idx - 1) in
        let! r := _build_recursive fuel' preorder inorder_index_map
               (root_inorder_idx + 1) right_bound in
        ret (TreeNode root_val l r)
  end.

(** Every call that gets past the base case consumes one element of
    [preorder], so the calls never nest deeper than this. *)
Definition recursion_fuel (preorder : list Z) : nat := S (length preorder).

Definition buildTree (preorder inorder : list Z) : M tree :=
  let inorder_index_map := index_map inorder in
  let! _ := set_preorder_idx 0 in
  _build_recursive (recursion_fuel preorder) preorder inorder_index_map
    0 (Z.of_nat (length inorder) - 1).

(** *** Approach 2: recursive without hashmap *)

(** How [list.index] reads its [start] and [stop] on a list of length [n]:
    a negative one counts from the end and is clipped at 0. *)
Definition slice_bound (n i : Z) : Z :=
  if i <? 0 then Z.max 0 (i + n) else i.

(** The scan of [list.index]: [l] is what is left of the list from
    position [i] on. *)
Fixpoint index_scan (x : Z) (l : list Z) (i stop : Z) : outcome Z :=
  match l with
  | [] => Raise ValueError
  | y :: l' =>
      if stop <=? i then Raise ValueError
      else if y =? x then Return i
      else index_scan x l' (i + 1) stop
  end.

(** [l.index(x, start, stop)]. *)
Definition list_index (l : list Z) (x start stop : Z) : outcome Z :=
  let n := Z.of_nat (length l) in
  let start' := slice_bound n start in
  index_scan x (drop (Z.to_nat start') l) start' (slice_bound n stop).

Fixpoint _build_without_map (fuel : nat) (preorder inorder : list Z)
    (left_bound right_bound : Z) : M tree :=
  match fuel with
  | O => lift Stuck
  | S fuel' =>
      if left_bound >? right_bound then ret Empty
      else
        let! i := get_preorder_idx in
        let! root_val := lift (getitem preorder i) in
        let! j := get_preorder_idx in
        let! _ := set_preorder_idx (j + 1) in
        let! root_inorder_idx :=
          lift (list_index inorder root_val left_bound (right_bound + 1)) in
        let! l := _build_without_map fuel' preorder inorder
               left_bound (root_inorder_idx - 1) in
        let! r := _build_without_map fuel' preorder inorder
               (root_inorder_idx + 1) right_bound in
        ret (TreeNode root_val l r)
  end.

Definition buildTree_v2 (preorder inorder : list Z) : M tree :=
  let! _ := set_preorder_idx 0 in
  _build_without_map (recursion_fuel preorder) preorder inorder
    0 (Z.of_nat (length inorder) - 1).

(** *** Approach 3: iterative with stack *)

(** Here the nodes are shared between the tree under construction and the
    stack, and are assigned to after they were pushed, so they live in a
    heap: a reference is an address, a [TreeNode] object holds references to
    its children. *)
Abbreviation ref := nat (only parsing).

Record node : Type := mkNode {
  val : Z;
  left : option ref;
  right : option ref
}.

Abbreviation heap := (list node) (only parsing).

(** [TreeNode(v)]: a fresh object with both child slots [None]. *)
Definition new_TreeNode (h : heap) (v : Z) : heap * ref :=
  (h ++ [mkNode v None None], length h).

(** [p.left = n] and [p.right = n]. *)
Definition set_left (h : heap) (p n : ref) : heap :=
  alter (fun o => mkNode (val o) (Some n) (right o)) p h.

Definition set_right (h : heap) (p n : ref) : heap :=
  alter (fun o => mkNode (val o) (left o) (Some n)) p h.

(** The inner [while] loop.  The stack is a list whose head is the top
    [stack[-1]]; every turn pops one element, so the loop is a recursion on
    the stack. *)
Fixpoint pop_matching (h : heap) (inorder : list Z) (stack : list ref)
    (parent : option ref) (inorder_idx : Z)
    : outcome (list ref * option ref * Z) :=
  match stack with
  | [] => Return ([], parent, inorder_idx)
  | top :: rest =>
      match h !! top with
      | None => Stuck
      | Some o =>
          obind (getitem inorder inorder_idx) (fun x =>
            if val o =? x
            then pop_matching h inorder rest (Some top) (inorder_idx + 1)
            else Return (stack, parent, inorder_idx))
      end
  end.

(** The body of the [for] loop, run on the elements [preorder[1:]] in
    turn; the state is the heap, the stack and [inorder_idx]. *)
Fixpoint build_loop (inorder : list Z) (todo : list Z)
    (h : heap) (stack : list ref) (inorder_idx : Z)
    : outcome (heap * list ref * Z) :=
  match todo with
  | [] => Return (h, stack, inorder_idx)
  | current_val :: todo' =>
      let '(h1, n) := new_TreeNode h current_val in
      obind (pop_matching h1 inorder stack None inorder_idx)
        (fun '(stack1, parent, inorder_idx1) =>
           obind
             match parent with
             | Some p => Return (set_right h1 p n)
             | None =>
                 match stack1 with
                 | top :: _ => Return (set_left h1 top n)
                 | [] => Raise IndexError
                 end
             end
             (fun h2 => build_loop inorder todo' h2 (n :: stack1) inorder_idx1))
  end.

(** The result is the reference held in [root] (or [None]) together with
    the heap it points into. *)
Definition buildTree_v3 (preorder inorder : list Z)
    : outcome (option ref * heap) :=
  match preorder with
  | [] => Return (None, [])
  | v :: todo =>
      let '(h, root) := new_TreeNode [] v in
      obind (build_loop inorder todo h [root] 0)
        (fun '(h', _, _) => Return (Some root, h'))
  end.

(** The tree a reference denotes in a heap, read down to depth [fuel]. *)
Fixpoint tree_at (fuel : nat) (h : heap) (r : option ref) : option tree :=
  match r with
  | None => Some Empty
  | Some p =>
      match fuel with
      | O => None
      | S fuel' =>
          match h !! p with
          | None => None
          | Some o =>
              match tree_at fuel' h (left o), tree_at fuel' h (right o) with
              | Some l, Some r' => Some (TreeNode (val o) l r')
              | _, _ => None
              end
          end
      end
  end.

(** The tree [buildTree_v3] hands back: no path in a heap of [n] objects
    without a cycle is longer than [n]. *)
Definition result_tree (res : option ref * heap) : option tree :=
  tree_at (length res.2) res.2 res.1.

End Builder.

(** ** Definitions for the proofs *)

Module BuilderSpec.
Import Builder.

(** How the results of the two recursive calls are put together. *)
Definition join (v : Z) (left_call : outcome tree * Solution)
    (right_call : Solution -> outcome tree * Solution)
    : outcome tree * Solution :=
  match left_call with
  | (Return l, s1) =>
      match right_call s1 with
      | (Return r, s2) => (Return (TreeNode v l r), s2)
      | (Raise e, s2) => (Raise e, s2)
      | (Stuck, s2) => (Stuck, s2)
      end
  | (Raise e, s1) => (Raise e, s1)
  | (Stuck, s1) => (Stuck, s1)
  end.

(** The elements of [preorder] a call of [buildTree] consumed, read off
    the cursor it leaves behind. *)
Definition consumed (pre : list Z) (s' : Solution) : list Z :=
  match preorder_idx s' with
  | Some k => take (Z.to_nat k) pre
  | None => []
  end.

(** The reference a child slot holds when the child's subtree [t] is
    stored from address [p] on. *)
Definition child (t : tree) (p : ref) : option ref :=
  match t with
  | Empty => None
  | TreeNode _ _ _ => Some p
  end.

(** The objects of [t] in the order they are created (preorder), the first
    one at address [b]. *)
Fixpoint layout (b : nat) (t : tree) : heap :=
  match t with
  | Empty => []
  | TreeNode v l r =>
      mkNode v (child l (S b)) (child r (S b + size l)%nat)
      :: layout (S b) l ++ layout (S b + size l)%nat r
  end.

(** The nodes of [t] still on the stack once all of [t] was processed, top
    first: the right spine is popped lazily, so what is left is the last
    node without a right child and what lies below it in its left chain. *)
Fixpoint pending (b : nat) (t : tree) : list ref :=
  match t with
  | Empty => []
  | TreeNode v l Empty => pending (S b) l ++ [b]
  | TreeNode v l r => pending (S b + size l)%nat r
  end.

Fixpoint pending_vals (t : tree) : list Z :=
  match t with
  | Empty => []
  | TreeNode v l Empty => pending_vals l ++ [v]
  | TreeNode v l r => pending_vals r
  end.

(** The keys of [t] the inorder cursor has passed by then. *)
Fixpoint popped (t : tree) : list Z :=
  match t with
  | Empty => []
  | TreeNode v l Empty => popped l
  | TreeNode v l r => inorder l ++ v :: popped r
  end.

(** The object a reference points to holds the given key. *)
Definition holds (h : heap) (p : ref) (x : Z) : Prop :=
  val <$> h !! p = Some x.

(** The inner loop halts on the stack [S0] when the next inorder keys are
    [I2]: the stack is empty, or its top holds another key than the next
    one. *)
Definition stops (h : heap) (S0 : list ref) (I2 : list Z) : Prop :=
  S0 = [] \/
  exists top rest w x I3,
    S0 = top :: rest /\ holds h top w /\ I2 = x :: I3 /\ w <> x.

(** Closes [NoDup l] and [x ∉ l] on a list of numerals. *)
Ltac notin_list := rewrite ?elem_of_cons, ?elem_of_nil; lia.
Ltac nodup_list :=
  repeat (apply NoDup_cons_2; [notin_list|]); apply NoDup_nil_2.

End BuilderSpec.

(** ** Definitions for the further properties *)

Module RunSpec.
Import Builder.

Section Run.

(** The list [preorder], and the way a recursion finds the inorder
    position of a root value [v] when it builds the range
    [[lb, rb]]: [locate v lb rb]. *)
Variable pre : list Z.
Variable locate : Z -> Z -> Z -> outcome Z.

(** [run lb rb i r i']: the recursive call for the inorder range
    [[lb, rb]], entered with the cursor at [i], ends with the outcome [r]
    and the cursor at [i'].  One rule per way through the body of
    [_build_recursive] and [_build_without_map]. *)
Inductive run : Z -> Z -> nat -> outcome tree -> nat -> Prop :=
| run_base lb rb i :
    lb > rb ->
    run lb rb i (Return Empty) i
| run_exhausted lb rb i :
    lb <= rb -> (length pre <= i)%nat ->
    run lb rb i (Raise IndexError) i
| run_unlocated lb rb i v e :
    lb <= rb -> pre !! i = Some v -> locate v lb rb = Raise e ->
    run lb rb i (Raise e) (S i)
| run_left_raises lb rb i v j e i1 :
    lb <= rb -> pre !! i = Some v -> locate v lb rb = Return j ->
    run lb (j - 1) (S i) (Raise e) i1 ->
    run lb rb i (Raise e) i1
| run_right_raises lb rb i v j l i1 e i2 :
    lb <= rb -> pre !! i = Some v -> locate v lb rb = Return j ->
    run lb (j - 1) (S i) (Return l) i1 ->
    run (j + 1) rb i1 (Raise e) i2 ->
    run lb rb i (Raise e) i2
| run_node lb rb i v j l i1 r i2 :
    lb <= rb -> pre !! i = Some v -> locate v lb rb = Return j ->
    run lb (j - 1) (S i) (Return l) i1 ->
    run (j + 1) rb i1 (Return r) i2 ->
    run lb rb i (Return (TreeNode v l r)) i2.

End Run.

(** The two ways of locating a root value: the dictionary of approach 1 and
    the scan of approach 2. *)
Definition locate_dict (m : gmap Z Z) (v lb rb : Z) : outcome Z :=
  dict_getitem m v.

Definition locate_scan (ino : list Z) (v lb rb : Z) : outcome Z :=
  list_index ino v lb (rb + 1).

(** The elements of [l] at the positions [lb], ..., [rb]. *)
Definition slice (l : list Z) (lb rb : Z) : list Z :=
  take (Z.to_nat (rb - lb + 1)) (drop (Z.to_nat lb) l).

End RunSpec.

(** ** Definitions for approach 3 on arbitrary input *)

Module V3Spec.
Import Builder BuilderSpec.

(** A chain of finished nodes down a right spine: each with its key and its
    finished left subtree; its right child is the next one of the chain, or
    what comes after the chain. *)
Fixpoint plug (c : list (Z * tree)) (t : tree) : tree :=
  match c with
  | [] => t
  | (v, l) :: c' => TreeNode v l (plug c' t)
  end.

Fixpoint chain_size (c : list (Z * tree)) : nat :=
  match c with
  | [] => O
  | (_, l) :: c' => S (size l + chain_size c')
  end.

Fixpoint chain_keys (c : list (Z * tree)) : list Z :=
  match c with
  | [] => []
  | (v, l) :: c' => v :: preorder l ++ chain_keys c'
  end.

Fixpoint chain_heap (b : nat) (c : list (Z * tree)) : list node :=
  match c with
  | [] => []
  | (v, l) :: c' =>
      mkNode v (child l (S b)) (Some (S b + size l)%nat)
      :: layout (S b) l ++ chain_heap (S b + size l)%nat c'
  end.

(** The tree under construction, as the loop of [buildTree_v3] sees it
    between two turns: one frame for each node on the stack, bottom first,
    made of the chain of finished nodes that leads to the node and of the
    node's key.  A node on the stack has no right child yet, and what
    follows it is its left subtree. *)
Fixpoint close_frames (fs : list (list (Z * tree) * Z)) : tree :=
  match fs with
  | [] => Empty
  | (c, v) :: fs' => plug c (TreeNode v (close_frames fs') Empty)
  end.

Fixpoint frames_size (fs : list (list (Z * tree) * Z)) : nat :=
  match fs with
  | [] => O
  | (c, _) :: fs' => (chain_size c + S (frames_size fs'))%nat
  end.

Fixpoint frames_keys (fs : list (list (Z * tree) * Z)) : list Z :=
  match fs with
  | [] => []
  | (c, v) :: fs' => chain_keys c ++ v :: frames_keys fs'
  end.

(** The addresses of the nodes on the stack, bottom first, when the first
    frame starts at address [b]. *)
Fixpoint frames_addrs (b : nat) (fs : list (list (Z * tree) * Z))
    : list nat :=
  match fs with
  | [] => []
  | (c, _) :: fs' =>
      (b + chain_size c)%nat :: frames_addrs (S (b + chain_size c)) fs'
  end.

(** The heap that holds the frames from address [b] on; [more] tells
    whether an object follows the last frame, in which case the last node
    on the stack already points to it as its left child. *)
Fixpoint open_heap (b : nat) (fs : list (list (Z * tree) * Z))
    (more : bool) : list node :=
  match fs with
  | [] => []
  | (c, v) :: fs' =>
      let a := (b + chain_size c)%nat in
      chain_heap b c
      ++ mkNode v
           (if match fs' with [] => more | _ :: _ => true end
            then Some (S a) else None)
           None
         :: open_heap (S a) fs' more
  end.

End V3Spec.

(** * Properties *)

(** ** The ordering predicate *)

Lemma subtree_trans (a b c : tree) : subtree a b -> subtree b c -> subtree a c.
Proof.
  intros Hab Hbc. induction Hbc.
  - exact Hab.
  - apply subtree_left. exact IHHbc.
  - apply subtree_right. exact IHHbc.
Qed.

Lemma bst_ordered_node (v : Z) (l r : tree) :
  bst_ordered (TreeNode v l r) <->
  (forall x, x ∈ inorder l -> x < v) /\ (forall x, x ∈ inorder r -> v < x)
  /\ bst_ordered l /\ bst_ordered r.
Proof.
  unfold bst_ordered. split.
  - intros H. pose proof (H v l r (subtree_here _)) as [Hl Hr].
    repeat split; try assumption.
    + apply (H v0 l0 r0). apply subtree_left. assumption.
    + apply (H v0 l0 r0). apply subtree_left. assumption.
    + apply (H v0 l0 r0). apply subtree_right. assumption.
    + apply (H v0 l0 r0). apply subtree_right. assumption.
  - intros (Hl & Hr & Hbl & Hbr) v0 l0 r0 Hsub.
    inversion Hsub; subst.
    + split; assumption.
    + apply Hbl. assumption.
    + apply Hbr. assumption.
Qed.

Lemma bst_ordered_rec (t : tree) : bst_ordered t <-> bst_rec t.
Proof.
  induction t as [|v l IHl r IHr].
  - split; [intros _; exact I|].
    intros _ v l r Hsub. inversion Hsub.
  - rewrite bst_ordered_node. simpl. rewrite IHl, IHr. reflexivity.
Qed.

(** ** The validator *)

Module ValidatorFacts.
Import Validator.

Lemma bound_ltb_trans (a b c : bound) :
  bound_ltb a b = true -> bound_ltb b c = true -> bound_ltb a c = true.
Proof.
  destruct a, b, c; simpl; try congruence; intros; lia.
Qed.

Lemma within_node (low high : bound) (v : Z) (l r : tree) :
  within low high (TreeNode v l r) <->
  within low high l /\ within low high r /\
  bound_ltb low (Fin v) = true /\ bound_ltb (Fin v) high = true.
Proof.
  unfold within. simpl. split.
  - intros H. repeat split.
    + apply H. apply elem_of_app. left. assumption.
    + apply H. apply elem_of_app. left. assumption.
    + apply H. apply elem_of_app. right. apply elem_of_cons. right. assumption.
    + apply H. apply elem_of_app. right. apply elem_of_cons. right. assumption.
    + apply H. apply elem_of_app. right. apply elem_of_cons. left. reflexivity.
    + apply H. apply elem_of_app. right. apply elem_of_cons. left. reflexivity.
  - intros (Hl & Hr & Hlo & Hhi) x Hx.
    apply elem_of_app in Hx as [Hx|Hx]; [apply Hl; assumption|].
    apply elem_of_cons in Hx as [->|Hx]; [split; assumption|].
    apply Hr; assumption.
Qed.

Lemma helper_node (v : Z) (l r : tree) (low high : bound) :
  helper (TreeNode v l r) low high =
  if negb (bound_ltb low (Fin v) && bound_ltb (Fin v) high) then false
  else helper l low (Fin v) && helper r (Fin v) high.
Proof. reflexivity. Qed.

(** What the bounds-passing recursion computes. *)
Lemma helper_spec (t : tree) : forall low high,
  helper t low high = true <-> bst_rec t /\ within low high t.
Proof.
  induction t as [|v l IHl r IHr]; intros low high.
  - simpl. split; [|reflexivity]. intros _. split; [exact I|].
    intros x Hx. inversion Hx.
  - rewrite helper_node, within_node. cbn [bst_rec].
    destruct (bound_ltb low (Fin v)) eqn:Hlo,
             (bound_ltb (Fin v) high) eqn:Hhi; cbn [negb andb];
      try (split; [intros ?; congruence
                  | intros [_ (_ & _ & ? & ?)]; congruence]).
    rewrite andb_true_iff, IHl, IHr. split.
    + intros ((Hbl & Hwl) & (Hbr & Hwr)).
      assert (Hl : forall x, x ∈ inorder l -> x < v).
      { intros x Hx. destruct (Hwl x Hx) as [_ H]. simpl in H. lia. }
      assert (Hr : forall x, x ∈ inorder r -> v < x).
      { intros x Hx. destruct (Hwr x Hx) as [H _]. simpl in H. lia. }
      split; [tauto|]. split; [|split; [|split; reflexivity]].
      * intros x Hx. destruct (Hwl x Hx) as [H1 H2]. split; [assumption|].
        eapply bound_ltb_trans; eassumption.
      * intros x Hx. destruct (Hwr x Hx) as [H1 H2]. split; [|assumption].
        eapply bound_ltb_trans; eassumption.
    + intros ((Hl & Hr & Hbl & Hbr) & (Hwl & Hwr & _)).
      split; (split; [assumption|]).
      * intros x Hx. split; [apply Hwl; assumption|].
        simpl. apply Z.ltb_lt. apply Hl. assumption.
      * intros x Hx. split; [|apply Hwr; assumption].
        simpl. apply Z.ltb_lt. apply Hr. assumption.
Qed.

Lemma within_unbounded (t : tree) : within NegInf PosInf t.
Proof. intros x _. split; reflexivity. Qed.

Lemma isValidBST_rec (t : tree) : isValidBST t = true <-> bst_rec t.
Proof.
  unfold isValidBST. rewrite helper_spec. split; [intros [H _]; exact H|].
  intros H. split; [exact H | apply within_unbounded].
Qed.

(** C2: [isValidBST] answers true exactly for the trees in which every
    node has all keys of its left subtree strictly below its own key and all
    keys of its right subtree strictly above it; the empty tree is one of
    them. *)
Theorem isValidBST_iff_bst_ordered :
  (forall root : tree, isValidBST root = true <-> bst_ordered root)
  /\ isValidBST Empty = true.
Proof.
  split; [|reflexivity].
  intros root. rewrite isValidBST_rec, bst_ordered_rec. reflexivity.
Qed.

(** C4 as the claim states it fails: the claim calls 4 a grandchild and
    the violation one that only shows transitively, not by comparing each
    node with its immediate children.  In the tree of the claim 4 is the
    right child of the root 5, and the comparison of each node with its
    own children rejects the tree. *)
Lemma children_ordered_negative_case :
  (exists l rl rr, tree_5_1_4_3 = TreeNode 5 l (TreeNode 4 rl rr))
  /\ 4 < 5
  /\ children_ordered tree_5_1_4_3 = false.
Proof.
  split; [|split; [lia | reflexivity]].
  eexists _, _, _. reflexivity.
Qed.

(** C4, amended: on the tree with root 5, left child 1 and right child 4
    whose left child is 3, [isValidBST] answers false: the key 4 is the
    right child of the root, so it lies in the right subtree of 5, and it
    is smaller than 5; the tree is not ordered, and comparing each node
    with its immediate children finds this as well.  A violation that only
    the bounds catch is the one of the tree with 7 in place of 4: every
    node is ordered against its own children, the grandchild 3 sits in the
    right subtree of 5, and [isValidBST] answers false. *)
Theorem isValidBST_negative_case :
  isValidBST tree_5_1_4_3 = false
  /\ (exists l r,
        tree_5_1_4_3 = TreeNode 5 l r
        /\ root_key r = Some 4 /\ 4 ∈ inorder r /\ 4 < 5)
  /\ ~ bst_ordered tree_5_1_4_3
  /\ (let t7 := TreeNode 5 (TreeNode 1 Empty Empty)
                           (TreeNode 7 (TreeNode 3 Empty Empty) Empty) in
      children_ordered t7 = true /\ isValidBST t7 = false).
Proof.
  split; [reflexivity|]. split; [|split].
  - eexists _, _. split; [reflexivity|]. split; [reflexivity|].
    split; [|lia].
    simpl. apply elem_of_cons. right. apply elem_of_cons. left. reflexivity.
  - intros H. destruct (H 5 _ _ (subtree_here _)) as [_ Hr].
    specialize (Hr 4). simpl in Hr.
    assert (5 < 4); [|lia]. apply Hr.
    apply elem_of_cons. right. apply elem_of_cons. left. reflexivity.
  - split; reflexivity.
Qed.

(** C9: a search tree whose keys include the smallest and the largest key
    of the key range is accepted: the bounds the root starts with lie
    outside every key, so no key is rejected for sitting on them. *)
Theorem isValidBST_boundary_values (t : tree) (kmin kmax : Z) :
  bst_ordered t ->
  (forall x, x ∈ inorder t -> kmin <= x <= kmax) ->
  kmin ∈ inorder t -> kmax ∈ inorder t ->
  isValidBST t = true.
Proof.
  intros Hbst _ _ _. apply isValidBST_rec. apply bst_ordered_rec. exact Hbst.
Qed.

Lemma isValidBST_boundary_values_witness :
  isValidBST
    (TreeNode 0 (TreeNode (- 2 ^ 63) Empty Empty)
                (TreeNode (2 ^ 63 - 1) Empty Empty)) = true.
Proof.
  apply (isValidBST_boundary_values _ (- 2 ^ 63) (2 ^ 63 - 1)).
  - apply bst_ordered_rec. simpl. repeat split; try exact I.
    + intros x Hx. apply list_elem_of_singleton in Hx. subst. lia.
    + intros x Hx. apply list_elem_of_singleton in Hx. subst. lia.
    + intros x Hx. inversion Hx.
    + intros x Hx. inversion Hx.
    + intros x Hx. inversion Hx.
    + intros x Hx. inversion Hx.
  - intros x Hx. simpl in Hx.
    apply elem_of_cons in Hx as [->|Hx]; [lia|].
    apply elem_of_cons in Hx as [->|Hx]; [lia|].
    apply list_elem_of_singleton in Hx. subst. lia.
  - simpl. apply elem_of_cons. left. reflexivity.
  - simpl. apply elem_of_cons. right. apply elem_of_cons. right.
    apply list_elem_of_singleton. reflexivity.
Defined.

End ValidatorFacts.

(** ** Traversals *)

Lemma length_preorder (t : tree) : length (preorder t) = size t.
Proof.
  induction t as [|v l IHl r IHr]; simpl; [reflexivity|].
  rewrite length_app, IHl, IHr. reflexivity.
Qed.

Lemma length_inorder (t : tree) : length (inorder t) = size t.
Proof.
  induction t as [|v l IHl r IHr]; simpl; [reflexivity|].
  rewrite length_app. simpl. rewrite IHl, IHr. lia.
Qed.

Lemma height_le_size (t : tree) : (height t <= size t)%nat.
Proof. induction t as [|v l IHl r IHr]; simpl; lia. Qed.

Lemma preorder_inorder_perm (t : tree) : preorder t ≡ₚ inorder t.
Proof.
  induction t as [|v l IHl r IHr]; simpl; [reflexivity|].
  rewrite IHl, IHr. apply Permutation_middle.
Qed.

Lemma NoDup_inorder (t : tree) : NoDup (preorder t) -> NoDup (inorder t).
Proof. intros H. rewrite <- preorder_inorder_perm. exact H. Qed.

(** ** The recursive constructions *)

Module BuilderFacts.
Import Builder BuilderSpec.

(** *** Lists and the dictionary *)

Lemma getitem_lookup (l : list Z) (i : nat) (x : Z) :
  l !! i = Some x -> getitem l (Z.of_nat i) = Return x.
Proof.
  intros H. pose proof (lookup_lt_Some _ _ _ H) as Hlt.
  unfold getitem.
  destruct (Z.ltb_spec (Z.of_nat i) 0) as [?|_]; [lia|].
  destruct (Z.ltb_spec (Z.of_nat i) 0) as [?|_]; [lia|].
  destruct (Z.leb_spec (Z.of_nat (length l)) (Z.of_nat i)) as [?|_]; [lia|].
  simpl. rewrite Nat2Z.id, H. reflexivity.
Qed.

Lemma getitem_middle (P R : list Z) (x : Z) :
  getitem (P ++ x :: R) (Z.of_nat (length P)) = Return x.
Proof. apply getitem_lookup. apply list_lookup_middle. reflexivity. Qed.

(** A non-negative index that [getitem] accepts is inside the list. *)
Lemma getitem_Return (l : list Z) (i x : Z) :
  0 <= i -> getitem l i = Return x ->
  i < Z.of_nat (length l) /\ l !! Z.to_nat i = Some x.
Proof.
  intros Hi. unfold getitem.
  destruct (Z.ltb_spec i 0) as [?|_]; [lia|].
  destruct (Z.ltb_spec i 0) as [?|_]; [lia|].
  destruct (Z.leb_spec (Z.of_nat (length l)) i) as [?|Hlt]; simpl;
    [discriminate|].
  destruct (l !! Z.to_nat i) eqn:E; [|discriminate].
  intros [= ->]. split; [lia | reflexivity].
Qed.

Lemma foldl_store_notin (l : list Z) : forall (m : gmap Z Z) (k v : Z),
  v ∉ l -> foldl store m (enumerate_from k l) !! v = m !! v.
Proof.
  induction l as [|x l IH]; intros m k v Hv; simpl; [reflexivity|].
  apply not_elem_of_cons in Hv as [Hne Hv].
  rewrite IH by assumption. unfold store. simpl.
  apply lookup_insert_ne. congruence.
Qed.

Lemma foldl_store_lookup (l : list Z) :
  forall (m : gmap Z Z) (k : Z) (i : nat) (v : Z),
  NoDup l -> l !! i = Some v ->
  foldl store m (enumerate_from k l) !! v = Some (k + Z.of_nat i).
Proof.
  induction l as [|x l IH]; intros m k i v Hnd Hi; [discriminate|].
  apply NoDup_cons in Hnd as [Hx Hnd]. simpl.
  destruct i as [|i]; simpl in Hi.
  - injection Hi as ->. rewrite foldl_store_notin by assumption.
    unfold store. simpl. rewrite lookup_insert_eq. f_equal. lia.
  - rewrite (IH _ _ i v Hnd Hi). f_equal. lia.
Qed.

Lemma foldl_store_Some (l : list Z) : forall (m : gmap Z Z) (k v j : Z),
  foldl store m (enumerate_from k l) !! v = Some j ->
  m !! v = Some j \/ v ∈ l.
Proof.
  induction l as [|x l IH]; intros m k v j H; simpl in H; [left; exact H|].
  apply IH in H as [H|H].
  - unfold store in H. simpl in H.
    destruct (decide (x = v)) as [->|Hne].
    + right. apply elem_of_cons. left. reflexivity.
    + rewrite lookup_insert_ne in H by assumption. left. exact H.
  - right. apply elem_of_cons. right. exact H.
Qed.

(** On a list without duplicates the dictionary sends every value to its
    position. *)
Lemma index_map_lookup (inorder : list Z) (i : nat) (v : Z) :
  NoDup inorder -> inorder !! i = Some v ->
  index_map inorder !! v = Some (Z.of_nat i).
Proof.
  intros Hnd Hi. unfold index_map.
  rewrite (foldl_store_lookup _ _ _ i v Hnd Hi). reflexivity.
Qed.

(** The keys of the dictionary are values of the list. *)
Lemma index_map_Some (inorder : list Z) (v j : Z) :
  index_map inorder !! v = Some j -> v ∈ inorder.
Proof.
  unfold index_map.
  intros H. apply foldl_store_Some in H as [H|H]; [|exact H].
  rewrite lookup_empty in H. discriminate.
Qed.

Lemma index_map_middle (A C : list Z) (v : Z) :
  NoDup (A ++ v :: C) ->
  index_map (A ++ v :: C) !! v = Some (Z.of_nat (length A)).
Proof.
  intros Hnd. apply index_map_lookup; [exact Hnd|].
  apply list_lookup_middle. reflexivity.
Qed.

(** *** One call of [_build_recursive] *)

Lemma build_recursive_base (fuel : nat) (pre : list Z) (m : gmap Z Z)
    (lb rb : Z) (s : Solution) :
  lb > rb -> _build_recursive (S fuel) pre m lb rb s = (Return Empty, s).
Proof.
  intros H. simpl. destruct (Z.gtb_spec lb rb) as [_|?]; [reflexivity|lia].
Qed.

Lemma build_recursive_node (fuel : nat) (pre : list Z) (m : gmap Z Z)
    (lb rb i v k : Z) :
  lb <= rb -> getitem pre i = Return v -> m !! v = Some k ->
  _build_recursive (S fuel) pre m lb rb (mkSolution (Some i)) =
  join v (_build_recursive fuel pre m lb (k - 1) (mkSolution (Some (i + 1))))
         (_build_recursive fuel pre m (k + 1) rb).
Proof.
  intros Hb Hg Hm. simpl.
  destruct (Z.gtb_spec lb rb) as [?|_]; [lia|].
  unfold bind, get_preorder_idx, lift, set_preorder_idx, dict_getitem, join.
  simpl. rewrite Hg, Hm.
  destruct (_build_recursive fuel pre m lb (k - 1) _) as [[l|e|] s1];
    reflexivity.
Qed.

(** *** Correctness of approach 1 *)

(** The call for the inorder range that holds exactly the keys of [t],
    started with the cursor on the first key of [t] in preorder, returns [t]
    and leaves the cursor behind the last key of [t]. *)
Lemma build_recursive_correct (t : tree) :
  forall (fuel : nat) (pre ino P R A C : list Z) (lb rb i : Z),
    pre = P ++ preorder t ++ R ->
    ino = A ++ inorder t ++ C ->
    NoDup ino ->
    (height t < fuel)%nat ->
    lb = Z.of_nat (length A) ->
    rb = lb + Z.of_nat (size t) - 1 ->
    i = Z.of_nat (length P) ->
    _build_recursive fuel pre (index_map ino) lb rb (mkSolution (Some i)) =
    (Return t, mkSolution (Some (i + Z.of_nat (size t)))).
Proof.
  induction t as [|v l IHl r IHr];
    intros fuel pre ino P R A C lb rb i Hpre Hino Hnd Hf Hlb Hrb Hi;
    (destruct fuel as [|fuel]; [simpl in Hf; lia|]).
  - rewrite build_recursive_base by (simpl in Hrb; lia).
    simpl. do 3 f_equal. lia.
  - simpl in Hf, Hrb.
    set (k := Z.of_nat (length A) + Z.of_nat (size l)).
    assert (Hl : _build_recursive fuel pre (index_map ino) lb (k - 1)
                   (mkSolution (Some (i + 1))) =
                 (Return l, mkSolution (Some (i + 1 + Z.of_nat (size l))))).
    { apply (IHl fuel pre ino (P ++ [v]) (preorder r ++ R) A
               (v :: inorder r ++ C)).
      - rewrite Hpre. simpl. rewrite <- !app_assoc. reflexivity.
      - rewrite Hino. simpl. rewrite <- !app_assoc. reflexivity.
      - exact Hnd.
      - lia.
      - exact Hlb.
      - unfold k. lia.
      - rewrite length_app. simpl. lia. }
    assert (Hr : _build_recursive fuel pre (index_map ino) (k + 1) rb
                   (mkSolution (Some (i + 1 + Z.of_nat (size l)))) =
                 (Return r, mkSolution (Some (i + 1 + Z.of_nat (size l)
                                              + Z.of_nat (size r))))).
    { apply (IHr fuel pre ino (P ++ v :: preorder l) R
               (A ++ inorder l ++ [v]) C).
      - rewrite Hpre. simpl. rewrite <- !app_assoc. reflexivity.
      - rewrite Hino. simpl. rewrite <- !app_assoc. reflexivity.
      - exact Hnd.
      - lia.
      - unfold k. rewrite !length_app, length_inorder. simpl. lia.
      - unfold k. lia.
      - rewrite length_app. simpl. rewrite length_preorder. lia. }
    rewrite (build_recursive_node fuel pre (index_map ino) lb rb i v k).
    + rewrite Hl. unfold join. rewrite Hr. cbn [size]. do 3 f_equal. lia.
    + lia.
    + rewrite Hpre, Hi. apply getitem_middle.
    + unfold k. rewrite <- length_inorder, <- Nat2Z.inj_add, <- length_app.
      assert (Hino' : ino = (A ++ inorder l) ++ v :: inorder r ++ C)
        by (rewrite Hino; simpl; rewrite <- !app_assoc; reflexivity).
      rewrite Hino'. apply index_map_middle. rewrite <- Hino'. exact Hnd.
Qed.

(** What [buildTree] does on the two traversals of a tree whose keys are
    pairwise distinct. *)
Lemma buildTree_traversals (t : tree) (s : Solution) :
  NoDup (preorder t) ->
  buildTree (preorder t) (inorder t) s =
  (Return t, mkSolution (Some (Z.of_nat (size t)))).
Proof.
  intros Hnd. unfold buildTree, bind, set_preorder_idx.
  rewrite (build_recursive_correct t _ (preorder t) (inorder t) [] [] [] []
             0 _ 0).
  - reflexivity.
  - rewrite app_nil_r. reflexivity.
  - rewrite app_nil_r. reflexivity.
  - apply NoDup_inorder. exact Hnd.
  - unfold recursion_fuel. rewrite length_preorder.
    pose proof (height_le_size t). lia.
  - reflexivity.
  - rewrite length_inorder. lia.
  - reflexivity.
Qed.

(** *** Correctness of approach 2 *)

Lemma index_scan_found (X : list Z) : forall (v : Z) (Y : list Z) (i stop : Z),
  v ∉ X -> i + Z.of_nat (length X) < stop ->
  index_scan v (X ++ v :: Y) i stop = Return (i + Z.of_nat (length X)).
Proof.
  induction X as [|x X IH]; intros v Y i stop Hv Hstop; simpl in *.
  - destruct (Z.leb_spec stop i) as [?|_]; [lia|].
    rewrite Z.eqb_refl. f_equal. lia.
  - apply not_elem_of_cons in Hv as [Hne Hv].
    destruct (Z.leb_spec stop i) as [?|_]; [lia|].
    destruct (Z.eqb_spec x v) as [?|_]; [congruence|].
    rewrite IH by (assumption || lia). f_equal. lia.
Qed.

(** The scan from [left_bound] finds a value at the place it has in the
    range when it does not occur earlier in the range. *)
Lemma list_index_middle (A X Y : list Z) (v start stop : Z) :
  v ∉ X ->
  start = Z.of_nat (length A) ->
  Z.of_nat (length A) + Z.of_nat (length X) < stop ->
  list_index (A ++ X ++ v :: Y) v start stop =
  Return (Z.of_nat (length A) + Z.of_nat (length X)).
Proof.
  intros Hv -> Hstop. unfold list_index, slice_bound.
  destruct (Z.ltb_spec (Z.of_nat (length A)) 0) as [?|_]; [lia|].
  destruct (Z.ltb_spec stop 0) as [?|_]; [lia|].
  rewrite Nat2Z.id, drop_app_length.
  apply index_scan_found; assumption.
Qed.

Lemma build_without_map_base (fuel : nat) (pre ino : list Z)
    (lb rb : Z) (s : Solution) :
  lb > rb -> _build_without_map (S fuel) pre ino lb rb s = (Return Empty, s).
Proof.
  intros H. simpl. destruct (Z.gtb_spec lb rb) as [_|?]; [reflexivity|lia].
Qed.

Lemma build_without_map_node (fuel : nat) (pre ino : list Z)
    (lb rb i v k : Z) :
  lb <= rb -> getitem pre i = Return v ->
  list_index ino v lb (rb + 1) = Return k ->
  _build_without_map (S fuel) pre ino lb rb (mkSolution (Some i)) =
  join v (_build_without_map fuel pre ino lb (k - 1)
            (mkSolution (Some (i + 1))))
         (_build_without_map fuel pre ino (k + 1) rb).
Proof.
  intros Hb Hg Hm. simpl.
  destruct (Z.gtb_spec lb rb) as [?|_]; [lia|].
  unfold bind, get_preorder_idx, lift, set_preorder_idx, join.
  simpl. rewrite Hg, Hm.
  destruct (_build_without_map fuel pre ino lb (k - 1) _) as [[l|e|] s1];
    reflexivity.
Qed.

Lemma build_without_map_correct (t : tree) :
  forall (fuel : nat) (pre ino P R A C : list Z) (lb rb i : Z),
    pre = P ++ preorder t ++ R ->
    ino = A ++ inorder t ++ C ->
    NoDup ino ->
    (height t < fuel)%nat ->
    lb = Z.of_nat (length A) ->
    rb = lb + Z.of_nat (size t) - 1 ->
    i = Z.of_nat (length P) ->
    _build_without_map fuel pre ino lb rb (mkSolution (Some i)) =
    (Return t, mkSolution (Some (i + Z.of_nat (size t)))).
Proof.
  induction t as [|v l IHl r IHr];
    intros fuel pre ino P R A C lb rb i Hpre Hino Hnd Hf Hlb Hrb Hi;
    (destruct fuel as [|fuel]; [simpl in Hf; lia|]).
  - rewrite build_without_map_base by (simpl in Hrb; lia).
    simpl. do 3 f_equal. lia.
  - simpl in Hf, Hrb.
    set (k := Z.of_nat (length A) + Z.of_nat (size l)).
    assert (Hl : _build_without_map fuel pre ino lb (k - 1)
                   (mkSolution (Some (i + 1))) =
                 (Return l, mkSolution (Some (i + 1 + Z.of_nat (size l))))).
    { apply (IHl fuel pre ino (P ++ [v]) (preorder r ++ R) A
               (v :: inorder r ++ C)).
      - rewrite Hpre. simpl. rewrite <- !app_assoc. reflexivity.
      - rewrite Hino. simpl. rewrite <- !app_assoc. reflexivity.
      - exact Hnd.
      - lia.
      - exact Hlb.
      - unfold k. lia.
      - rewrite length_app. simpl. lia. }
    assert (Hr : _build_without_map fuel pre ino (k + 1) rb
                   (mkSolution (Some (i + 1 + Z.of_nat (size l)))) =
                 (Return r, mkSolution (Some (i + 1 + Z.of_nat (size l)
                                              + Z.of_nat (size r))))).
    { apply (IHr fuel pre ino (P ++ v :: preorder l) R
               (A ++ inorder l ++ [v]) C).
      - rewrite Hpre. simpl. rewrite <- !app_assoc. reflexivity.
      - rewrite Hino. simpl. rewrite <- !app_assoc. reflexivity.
      - exact Hnd.
      - lia.
      - unfold k. rewrite !length_app, length_inorder. simpl. lia.
      - unfold k. lia.
      - rewrite length_app. simpl. rewrite length_preorder. lia. }
    rewrite (build_without_map_node fuel pre ino lb rb i v k).
    + rewrite Hl. unfold join. rewrite Hr. cbn [size]. do 3 f_equal. lia.
    + lia.
    + rewrite Hpre, Hi. apply getitem_middle.
    + assert (Hino' : ino = A ++ inorder l ++ v :: (inorder r ++ C))
        by (rewrite Hino; simpl; rewrite <- !app_assoc; reflexivity).
      unfold k. rewrite <- length_inorder. rewrite Hino'.
      apply list_index_middle.
      * rewrite Hino' in Hnd. apply NoDup_app in Hnd as (_ & _ & Hnd).
        apply NoDup_app in Hnd as (_ & Hnd & _).
        intros Hin. apply (Hnd v Hin). apply elem_of_cons. left. reflexivity.
      * exact Hlb.
      * rewrite length_inorder. lia.
Qed.

Lemma buildTree_v2_traversals (t : tree) (s : Solution) :
  NoDup (preorder t) ->
  buildTree_v2 (preorder t) (inorder t) s =
  (Return t, mkSolution (Some (Z.of_nat (size t)))).
Proof.
  intros Hnd. unfold buildTree_v2, bind, set_preorder_idx.
  rewrite (build_without_map_correct t _ (preorder t) (inorder t) [] [] [] []
             0 _ 0).
  - reflexivity.
  - rewrite app_nil_r. reflexivity.
  - rewrite app_nil_r. reflexivity.
  - apply NoDup_inorder. exact Hnd.
  - unfold recursion_fuel. rewrite length_preorder.
    pose proof (height_le_size t). lia.
  - reflexivity.
  - rewrite length_inorder. lia.
  - reflexivity.
Qed.

(** *** Correctness of approach 3 *)

Lemma length_layout (t : tree) : forall b, length (layout b t) = size t.
Proof.
  induction t as [|v l IHl r IHr]; intros b; simpl; [reflexivity|].
  rewrite length_app, IHl, IHr. reflexivity.
Qed.

Lemma pending_node (b : nat) (v : Z) (l r : tree) :
  r <> Empty ->
  pending b (TreeNode v l r) = pending (S b + size l)%nat r
  /\ pending_vals (TreeNode v l r) = pending_vals r
  /\ popped (TreeNode v l r) = inorder l ++ v :: popped r.
Proof. destruct r; [congruence|]. intros _. repeat split. Qed.

Lemma layout_node (b : nat) (v : Z) (l r : tree) :
  layout b (TreeNode v l r) =
  mkNode v (child l (S b)) (child r (S b + size l)%nat)
  :: layout (S b) l ++ layout (S b + size l)%nat r.
Proof. reflexivity. Qed.

Lemma inorder_popped_pending (t : tree) :
  inorder t = popped t ++ pending_vals t.
Proof.
  induction t as [|v l IHl r IHr]; [reflexivity|].
  destruct r as [|vr rl rr].
  - simpl. rewrite IHl, <- app_assoc. reflexivity.
  - remember (TreeNode vr rl rr) as r eqn:Er.
    assert (Hr : r <> Empty) by (rewrite Er; discriminate).
    destruct (pending_node 0 v l r Hr) as (_ & -> & ->).
    cbn [inorder]. rewrite IHr at 1. rewrite <- app_assoc. reflexivity.
Qed.

Lemma length_pending (t : tree) : forall b,
  length (pending b t) = length (pending_vals t).
Proof.
  induction t as [|v l IHl r IHr]; intros b; [reflexivity|].
  destruct r as [|vr rl rr].
  - simpl. rewrite !length_app, IHl. reflexivity.
  - remember (TreeNode vr rl rr) as r eqn:Er.
    assert (Hr : r <> Empty) by (rewrite Er; discriminate).
    destruct (pending_node b v l r Hr) as (-> & -> & _). apply IHr.
Qed.

Lemma holds_app_l (h h' : heap) (p : ref) (x : Z) :
  holds h p x -> holds (h ++ h') p x.
Proof.
  unfold holds. intros H. destruct (h !! p) as [o|] eqn:E; [|discriminate].
  rewrite (lookup_app_l_Some _ _ _ _ E). exact H.
Qed.

Lemma pending_holds (t : tree) : forall (b : nat) (H0 H2 : heap),
  length H0 = b ->
  Forall2 (holds (H0 ++ layout b t ++ H2)) (pending b t) (pending_vals t).
Proof.
  induction t as [|v l IHl r IHr]; intros b H0 H2 Hb; [constructor|].
  destruct r as [|vr rl rr].
  - simpl. apply Forall2_app.
    + specialize (IHl (S b) (H0 ++ [mkNode v (child l (S b)) None]) H2).
      rewrite app_nil_r. rewrite <- app_assoc in IHl. simpl in IHl.
      apply IHl. rewrite length_app. simpl. lia.
    + constructor; [|constructor]. unfold holds.
      rewrite list_lookup_middle by (symmetry; exact Hb). reflexivity.
  - remember (TreeNode vr rl rr) as r eqn:Er.
    assert (Hr : r <> Empty) by (rewrite Er; discriminate).
    destruct (pending_node b v l r Hr) as (-> & -> & _).
    rewrite layout_node.
    specialize (IHr (S b + size l)%nat
      (H0 ++ mkNode v (child l (S b)) (child r (S b + size l)%nat)
          :: layout (S b) l) H2).
    rewrite <- app_assoc in IHr. rewrite <- !app_comm_cons, <- app_assoc.
    rewrite <- app_comm_cons in IHr.
    apply IHr. rewrite length_app. simpl. rewrite length_layout. lia.
Qed.

Lemma stops_app_l (h h' : heap) (S0 : list ref) (I2 : list Z) :
  stops h S0 I2 -> stops (h ++ h') S0 I2.
Proof.
  intros [->|(top & rest & w & x & I3 & -> & Hw & -> & Hne)];
    [left; reflexivity|].
  right. exists top, rest, w, x, I3.
  repeat split; try assumption. apply holds_app_l. exact Hw.
Qed.

(** The inner loop pops exactly the references whose keys are the next
    inorder keys, and stops at the first one whose key differs. *)
Lemma pop_matching_run (h : heap) (ino : list Z) (Q : list ref) :
  forall (vs : list Z) (S0 : list ref) (parent : option ref)
         (I1 I2 : list Z) (k : Z),
    Forall2 (holds h) Q vs ->
    ino = I1 ++ vs ++ I2 ->
    k = Z.of_nat (length I1) ->
    stops h S0 I2 ->
    pop_matching h ino (Q ++ S0) parent k =
    Return (S0, from_option Some parent (last Q), k + Z.of_nat (length Q)).
Proof.
  induction Q as [|q Q IH]; intros vs S0 parent I1 I2 k Hh Hino Hk Hstop.
  - apply Forall2_nil_inv_l in Hh as ->. simpl.
    destruct Hstop as [->|(top & rest & w & x & I3 & -> & Hw & -> & Hne)].
    + simpl. do 2 f_equal. lia.
    + simpl. unfold holds in Hw.
      destruct (h !! top) as [o|] eqn:E; [|discriminate].
      simpl in Hw. injection Hw as Hw.
      assert (Hg : getitem ino k = Return x)
        by (rewrite Hino, Hk; apply getitem_middle).
      rewrite Hg. simpl.
      destruct (Z.eqb_spec (val o) x) as [?|_]; [congruence|].
      do 2 f_equal. lia.
  - apply Forall2_cons_inv_l in Hh as (x & vs' & Hq & Hh & ->).
    simpl. unfold holds in Hq.
    destruct (h !! q) as [o|] eqn:E; [|discriminate].
    simpl in Hq. injection Hq as Hq.
    assert (Hg : getitem ino k = Return x)
      by (rewrite Hino, Hk; apply getitem_middle).
    rewrite Hg. simpl. rewrite Hq, Z.eqb_refl.
    rewrite (IH vs' S0 (Some q) (I1 ++ [x]) I2 _ Hh).
    + do 2 f_equal.
      * destruct Q as [|q' Q']; [reflexivity|].
        simpl. destruct (last (q' :: Q')) eqn:EL; [reflexivity|].
        apply last_None in EL. discriminate.
      * lia.
    + rewrite Hino. simpl. rewrite <- app_assoc. reflexivity.
    + rewrite length_app. simpl. lia.
    + exact Hstop.
Qed.

(** One turn of the [for] loop that attaches the new node on the left: the
    top of the stack holds another key than the next inorder key. *)
Lemma build_loop_step_left (ino : list Z) (x : Z) (todo : list Z) (h : heap)
    (b : ref) (S0 : list ref) (k w y : Z) :
  holds h b w -> getitem ino k = Return y -> w <> y ->
  build_loop ino (x :: todo) h (b :: S0) k =
  build_loop ino todo (set_left (h ++ [mkNode x None None]) b (length h))
    (length h :: b :: S0) k.
Proof.
  intros Hb Hg Hne. unfold holds in Hb.
  destruct (h !! b) as [o|] eqn:E; [|discriminate].
  simpl in Hb. injection Hb as Hb.
  cbn [build_loop new_TreeNode pop_matching].
  rewrite (lookup_app_l_Some _ _ _ _ E), Hg. cbn [obind].
  destruct (Z.eqb_spec (val o) y) as [?|_]; [congruence|].
  reflexivity.
Qed.

(** One turn that attaches the new node on the right: the keys of the
    references [Q ++ [b]] on top of the stack are the next inorder keys, so
    all of them are popped and [b], the last one, becomes the parent. *)
Lemma build_loop_step_right (ino : list Z) (x : Z) (todo : list Z) (h : heap)
    (Q : list ref) (b : ref) (S0 : list ref) (vs I1 I2 : list Z) (k : Z) :
  Forall2 (holds h) (Q ++ [b]) vs ->
  ino = I1 ++ vs ++ I2 ->
  k = Z.of_nat (length I1) ->
  stops h S0 I2 ->
  build_loop ino (x :: todo) h (Q ++ b :: S0) k =
  build_loop ino todo (set_right (h ++ [mkNode x None None]) b (length h))
    (length h :: S0) (k + Z.of_nat (length Q) + 1).
Proof.
  intros HQ Hino Hk Hstop.
  cbn [build_loop new_TreeNode].
  replace (Q ++ b :: S0) with ((Q ++ [b]) ++ S0)
    by (rewrite <- app_assoc; reflexivity).
  rewrite (pop_matching_run (h ++ [mkNode x None None]) ino (Q ++ [b]) vs S0
             None I1 I2 k).
  - rewrite last_snoc. cbn [obind from_option].
    rewrite length_app. simpl length.
    replace (k + Z.of_nat (length Q + 1)) with (k + Z.of_nat (length Q) + 1)
      by lia.
    reflexivity.
  - eapply Forall2_impl; [exact HQ|]. intros p z. apply holds_app_l.
  - exact Hino.
  - exact Hk.
  - apply stops_app_l. exact Hstop.
Qed.

Lemma set_left_middle (H0 H2 : heap) (v : Z) (lo ro : option ref) (n : ref) :
  set_left (H0 ++ mkNode v lo ro :: H2) (length H0) n =
  H0 ++ mkNode v (Some n) ro :: H2.
Proof.
  unfold set_left.
  replace (length H0) with (length H0 + 0)%nat at 1 by lia.
  rewrite alter_app_r. reflexivity.
Qed.

Lemma set_right_middle (H0 H2 : heap) (v : Z) (lo ro : option ref) (n : ref) :
  set_right (H0 ++ mkNode v lo ro :: H2) (length H0) n =
  H0 ++ mkNode v lo (Some n) :: H2.
Proof.
  unfold set_right.
  replace (length H0) with (length H0 + 0)%nat at 1 by lia.
  rewrite alter_app_r. reflexivity.
Qed.

Lemma inorder_nonempty (v : Z) (l r : tree) :
  exists x rest, inorder (TreeNode v l r) = x :: rest.
Proof.
  simpl. destruct (inorder l) as [|x rest]; simpl; eauto.
Qed.

(** The turns of the [for] loop that process the nodes below the root of
    [t], once that root was created at the end of the heap [H0] and pushed:
    they lay out [t] behind [H0], leave [pending _ t] on the stack in place
    of the root, and move the inorder cursor over [popped t]. *)
Lemma build_loop_subtree (t : tree) :
  forall (v : Z) (l r : tree) (H0 : heap) (S0 : list ref)
         (ino I1 I2 : list Z) (k : Z) (todo : list Z),
    t = TreeNode v l r ->
    ino = I1 ++ inorder t ++ I2 ->
    k = Z.of_nat (length I1) ->
    NoDup (inorder t) ->
    (S0 = [] \/ exists top rest w,
        S0 = top :: rest /\ holds H0 top w /\ w ∉ inorder t) ->
    build_loop ino (preorder l ++ preorder r ++ todo)
      (H0 ++ [mkNode v None None]) (length H0 :: S0) k =
    build_loop ino todo (H0 ++ layout (length H0) t)
      (pending (length H0) t ++ S0)
      (k + Z.of_nat (length (popped t))).
Proof.
  induction t as [|v0 l0 IHl r0 IHr];
    intros v l r H0 S0 ino I1 I2 k todo Ht Hino Hk Hnd HS;
    [discriminate|].
  injection Ht as -> -> ->.
  set (b := length H0).
  assert (Hb : length H0 = b) by reflexivity.
  assert (Hroot : forall lo ro H2,
            holds (H0 ++ mkNode v lo ro :: H2) b v).
  { intros lo ro H2. unfold holds.
    rewrite list_lookup_middle by reflexivity. reflexivity. }
  assert (Hndl : NoDup (inorder l)).
  { simpl in Hnd. apply NoDup_app in Hnd as (H & _ & _). exact H. }
  assert (Hndr : NoDup (inorder r)).
  { simpl in Hnd. apply NoDup_app in Hnd as (_ & _ & H).
    apply NoDup_cons in H as [_ H]. exact H. }
  assert (Hvl : v ∉ inorder l).
  { simpl in Hnd. apply NoDup_app in Hnd as (_ & H & _).
    intros Hin. apply (H v Hin). apply elem_of_cons. left. reflexivity. }
  (* the left subtree *)
  assert (HL : forall todoL,
    build_loop ino (preorder l ++ todoL)
      (H0 ++ [mkNode v None None]) (b :: S0) k =
    build_loop ino todoL
      (H0 ++ mkNode v (child l (S b)) None :: layout (S b) l)
      (pending (S b) l ++ b :: S0)
      (k + Z.of_nat (length (popped l)))).
  { intros todoL. destruct l as [|vl ll lr].
    - simpl. rewrite Z.add_0_r. reflexivity.
    - remember (TreeNode vl ll lr) as l eqn:El.
      destruct (inorder_nonempty vl ll lr) as (y & rest & Hy).
      rewrite <- El in Hy.
      replace (preorder l ++ todoL)
        with (vl :: preorder ll ++ preorder lr ++ todoL)
        by (rewrite El; simpl; rewrite <- app_assoc; reflexivity).
      assert (HlenL : length (H0 ++ [mkNode v (Some (S b)) None]) = S b)
        by (rewrite length_app; simpl; unfold b; lia).
      pose proof (IHl vl ll lr (H0 ++ [mkNode v (Some (S b)) None])
                    (b :: S0) ino I1 (v :: inorder r ++ I2) k todoL) as IH.
      rewrite HlenL, <- !app_assoc in IH. simpl app in IH.
      rewrite (build_loop_step_left ino vl _ _ b S0 k v y).
      + rewrite length_app. simpl length.
        replace (length H0 + 1)%nat with (S b) by (unfold b; lia).
        rewrite <- app_assoc. simpl app. unfold b at 1.
        rewrite set_left_middle. fold b.
        rewrite IH.
        * rewrite El. reflexivity.
        * exact El.
        * rewrite Hino. simpl. rewrite <- app_assoc. reflexivity.
        * exact Hk.
        * exact Hndl.
        * right. exists b, S0, v. split; [reflexivity|]. split; [|exact Hvl].
          apply Hroot.
      + apply Hroot.
      + rewrite Hino, Hk. simpl. rewrite Hy. simpl. apply getitem_middle.
      + intros ->. apply Hvl. rewrite Hy. apply elem_of_cons. left.
        reflexivity. }
  rewrite HL. clear HL.
  destruct r as [|vr rl rr].
  - simpl. rewrite !app_nil_r, <- app_assoc. reflexivity.
  - remember (TreeNode vr rl rr) as r eqn:Er.
    assert (Hr : r <> Empty) by (rewrite Er; discriminate).
    destruct (pending_node b v l r Hr) as (-> & _ & ->).
    destruct (inorder_nonempty vr rl rr) as (y & rest & Hy).
    rewrite <- Er in Hy.
    replace (preorder r ++ todo)
      with (vr :: preorder rl ++ preorder rr ++ todo)
      by (rewrite Er; simpl; rewrite <- app_assoc; reflexivity).
    set (n := (S b + size l)%nat).
    assert (Hn : length (H0 ++ mkNode v (child l (S b)) (Some n)
                            :: layout (S b) l) = n).
    { rewrite length_app. simpl. rewrite length_layout. unfold n, b. lia. }
    assert (Hlen : length (inorder l) =
                   (length (popped l) + length (pending (S b) l))%nat).
    { rewrite (inorder_popped_pending l) at 1.
      rewrite length_app, <- (length_pending l (S b)). reflexivity. }
    rewrite (build_loop_step_right ino vr _ _ (pending (S b) l) b S0
               (pending_vals l ++ [v]) (I1 ++ popped l) (inorder r ++ I2)).
    + replace (length (H0 ++ mkNode v (child l (S b)) None
                          :: layout (S b) l)) with n
        by (rewrite length_app; simpl; rewrite length_layout;
            unfold n, b; lia).
      rewrite <- app_assoc, <- app_comm_cons. unfold b at 2.
      rewrite set_right_middle. fold b.
      pose proof (IHr vr rl rr
                    (H0 ++ mkNode v (child l (S b)) (Some n) :: layout (S b) l)
                    S0 ino (I1 ++ inorder l ++ [v]) I2
                    (k + Z.of_nat (length (popped l))
                     + Z.of_nat (length (pending (S b) l)) + 1) todo) as IH.
      rewrite Hn, <- !app_assoc, <- !app_comm_cons in IH.
      rewrite IH.
      * rewrite layout_node. fold b. fold n.
        replace (child r n) with (Some n) by (rewrite Er; reflexivity).
        f_equal. rewrite !length_app. simpl length. lia.
      * exact Er.
      * rewrite Hino. simpl. rewrite <- !app_assoc. reflexivity.
      * rewrite !length_app. simpl length. lia.
      * exact Hndr.
      * destruct HS as [->|(top & rest' & w & -> & Hw & Hnot)];
          [left; reflexivity|].
        right. exists top, rest', w. split; [reflexivity|]. split.
        -- apply holds_app_l. exact Hw.
        -- intros Hin. apply Hnot. simpl. apply elem_of_app. right.
           apply elem_of_cons. right. exact Hin.
    + apply Forall2_app.
      * pose proof (pending_holds l (S b)
                      (H0 ++ [mkNode v (child l (S b)) None]) []) as HP.
        rewrite app_nil_r, <- app_assoc in HP. apply HP.
        rewrite length_app. simpl. unfold b. lia.
      * constructor; [|constructor]. apply Hroot.
    + rewrite Hino. simpl. rewrite (inorder_popped_pending l).
      rewrite <- !app_assoc. reflexivity.
    + rewrite length_app. lia.
    + destruct HS as [->|(top & rest' & w & -> & Hw & Hnot)];
        [left; reflexivity|].
      right. exists top, rest', w, y, (rest ++ I2).
      split; [reflexivity|]. split; [apply holds_app_l; exact Hw|].
      split; [rewrite Hy; reflexivity|].
      intros ->. apply Hnot. simpl. apply elem_of_app. right.
      apply elem_of_cons. right. rewrite Hy. apply elem_of_cons. left.
      reflexivity.
Qed.

(** Reading the layout of [t] back gives [t]. *)
Lemma tree_at_layout (t : tree) :
  forall (fuel : nat) (H0 H2 : heap),
    (height t <= fuel)%nat ->
    tree_at fuel (H0 ++ layout (length H0) t ++ H2) (child t (length H0)) =
    Some t.
Proof.
  induction t as [|v l IHl r IHr]; intros fuel H0 H2 Hf;
    [destruct fuel; reflexivity|].
  destruct fuel as [|fuel]; [simpl in Hf; lia|].
  simpl in Hf. rewrite layout_node. cbn [child tree_at].
  set (b := length H0).
  set (o := mkNode v (child l (S b)) (child r (S b + size l)%nat)).
  rewrite <- app_comm_cons.
  rewrite list_lookup_middle by reflexivity.
  cbn [left right val o].
  assert (Hl : tree_at fuel
                 (H0 ++ o :: (layout (S b) l ++ layout (S b + size l) r) ++ H2)
                 (child l (S b)) = Some l).
  { pose proof (IHl fuel (H0 ++ [o]) (layout (S b + size l) r ++ H2)) as IH.
    replace (length (H0 ++ [o])) with (S b) in IH
      by (rewrite length_app; simpl; unfold b; lia).
    rewrite <- !app_assoc in IH. simpl app in IH.
    rewrite <- app_assoc. apply IH. lia. }
  assert (Hr : tree_at fuel
                 (H0 ++ o :: (layout (S b) l ++ layout (S b + size l) r) ++ H2)
                 (child r (S b + size l)%nat) = Some r).
  { pose proof (IHr fuel (H0 ++ o :: layout (S b) l) H2) as IH.
    replace (length (H0 ++ o :: layout (S b) l)) with (S b + size l)%nat in IH
      by (rewrite length_app; simpl; rewrite length_layout; unfold b; lia).
    rewrite <- !app_assoc, <- !app_comm_cons in IH.
    rewrite <- app_assoc. apply IH. lia. }
  rewrite Hl, Hr. reflexivity.
Qed.

(** What [buildTree_v3] does on the two traversals of a tree whose keys are
    pairwise distinct: the heap it leaves is the layout of the tree. *)
Lemma buildTree_v3_traversals (t : tree) :
  NoDup (preorder t) ->
  buildTree_v3 (preorder t) (inorder t) = Return (child t 0%nat, layout 0 t).
Proof.
  intros Hnd. destruct t as [|v l r]; [reflexivity|].
  cbn [preorder buildTree_v3 new_TreeNode length app].
  pose proof (build_loop_subtree (TreeNode v l r) v l r [] [] 
                (inorder (TreeNode v l r)) [] [] 0 []) as H.
  rewrite !app_nil_r in H. cbn [app length] in H.
  rewrite H.
  - reflexivity.
  - reflexivity.
  - reflexivity.
  - reflexivity.
  - apply NoDup_inorder. exact Hnd.
  - left. reflexivity.
Qed.

Lemma result_tree_layout (t : tree) :
  result_tree (child t 0%nat, layout 0 t) = Some t.
Proof.
  unfold result_tree. cbn [fst snd].
  pose proof (tree_at_layout t (length (layout 0 t)) [] []) as H.
  rewrite app_nil_r in H. apply H.
  rewrite length_layout. apply height_le_size.
Qed.

(** *** Every call of [_build_recursive], on any input *)

Lemma build_recursive_unfold (fuel : nat) (pre : list Z) (m : gmap Z Z)
    (lb rb : Z) (s : Solution) :
  _build_recursive (S fuel) pre m lb rb s =
  if lb >? rb then (Return Empty, s)
  else
    match preorder_idx s with
    | None => (Raise AttributeError, s)
    | Some i =>
        match getitem pre i with
        | Return v =>
            match m !! v with
            | Some k =>
                join v (_build_recursive fuel pre m lb (k - 1)
                          (mkSolution (Some (i + 1))))
                       (_build_recursive fuel pre m (k + 1) rb)
            | None => (Raise KeyError, mkSolution (Some (i + 1)))
            end
        | Raise e => (Raise e, s)
        | Stuck => (Stuck, s)
        end
    end.
Proof.
  simpl. destruct (lb >? rb); [reflexivity|].
  unfold bind, get_preorder_idx, lift, set_preorder_idx, dict_getitem, join.
  destruct s as [[i|]]; simpl; [|reflexivity].
  destruct (getitem pre i) as [v|e|]; simpl; try reflexivity.
  destruct (m !! v) as [k|]; simpl; [|reflexivity].
  destruct (_build_recursive fuel pre m lb (k - 1) _) as [[l|e|] s1];
    reflexivity.
Qed.

(** The cursor only moves forward, over elements of [preorder]; unless the
    call raised [KeyError], every element it moved over is a key of the
    dictionary; and enough fuel never runs out. *)
Lemma build_recursive_trace (fuel : nat) :
  forall (pre : list Z) (m : gmap Z Z) (lb rb i : Z),
    0 <= i ->
    exists r i',
      _build_recursive fuel pre m lb rb (mkSolution (Some i)) =
      (r, mkSolution (Some i'))
      /\ i <= i'
      /\ (r <> Raise KeyError ->
          forall j, i <= j < i' ->
            exists v, pre !! Z.to_nat j = Some v /\ is_Some (m !! v))
      /\ (Z.of_nat (length pre) - i < Z.of_nat fuel -> (0 < fuel)%nat ->
          r <> Stuck).
Proof.
  induction fuel as [|fuel IH]; intros pre m lb rb i Hi.
  - exists Stuck, i. simpl. unfold lift.
    split; [reflexivity|]. split; [lia|]. split; [intros _ j Hj; lia|]. lia.
  - rewrite build_recursive_unfold. cbn [preorder_idx].
    destruct (lb >? rb).
    { exists (Return Empty), i. split; [reflexivity|]. split; [lia|].
      split; [intros _ j Hj; lia|]. intros _ _; discriminate. }
    destruct (getitem pre i) as [v|e|] eqn:Hg.
    + destruct (getitem_Return pre i v Hi Hg) as [Hlt Hv].
      destruct (m !! v) as [k|] eqn:Hm.
      * destruct (IH pre m lb (k - 1) (i + 1) ltac:(lia))
          as (rl & i1 & El & Hi1 & Hkl & Hsl).
        rewrite El. unfold join.
        assert (Hfirst : forall j, i <= j < i + 1 ->
                  exists v, pre !! Z.to_nat j = Some v /\ is_Some (m !! v)).
        { intros j Hj. replace j with i by lia. exists v.
          split; [exact Hv|]. rewrite Hm. eexists; reflexivity. }
        destruct rl as [l|e|].
        -- destruct (IH pre m (k + 1) rb i1 ltac:(lia))
             as (rr & i2 & Er & Hi2 & Hkr & Hsr).
           rewrite Er.
           assert (Hall : rr <> Raise KeyError -> forall j, i <= j < i2 ->
                     exists v, pre !! Z.to_nat j = Some v
                               /\ is_Some (m !! v)).
           { intros Hrr j Hj.
             destruct (Z.lt_ge_cases j (i + 1)) as [?|?];
               [apply Hfirst; lia|].
             destruct (Z.lt_ge_cases j i1) as [?|?];
               [apply Hkl; [discriminate | lia]|].
             apply Hkr; [exact Hrr | lia]. }
           destruct rr as [r|e|].
           ++ exists (Return (TreeNode v l r)), i2.
              split; [reflexivity|]. split; [lia|].
              split; [intros _; apply Hall; discriminate|].
              intros _ _; discriminate.
           ++ exists (Raise e), i2.
              split; [reflexivity|]. split; [lia|].
              split; [exact Hall|]. intros _ _; discriminate.
           ++ exists Stuck, i2.
              split; [reflexivity|]. split; [lia|].
              split; [exact Hall|]. intros Hf _. apply Hsr; lia.
        -- exists (Raise e), i1.
           split; [reflexivity|]. split; [lia|]. split.
           ++ intros He j Hj.
              destruct (Z.lt_ge_cases j (i + 1)) as [?|?];
                [apply Hfirst; lia|].
              apply Hkl; [exact He | lia].
           ++ intros _ _; discriminate.
        -- exists Stuck, i1.
           split; [reflexivity|]. split; [lia|]. split.
           ++ intros He j Hj.
              destruct (Z.lt_ge_cases j (i + 1)) as [?|?];
                [apply Hfirst; lia|].
              apply Hkl; [exact He | lia].
           ++ intros Hf _. apply Hsl; lia.
      * exists (Raise KeyError), (i + 1).
        split; [reflexivity|]. split; [lia|].
        split; [intros H; congruence|]. intros _ _; discriminate.
    + exists (Raise e), i. split; [reflexivity|]. split; [lia|].
      split; [intros _ j Hj; lia|]. intros _ _; discriminate.
    + exfalso. unfold getitem in Hg.
      destruct ((_ <? 0) || _); [discriminate|].
      destruct (pre !! _); discriminate.
Qed.

(** More fuel does not change what a call does, once it did not run out. *)
Lemma build_recursive_fuel_mono (fuel : nat) :
  forall (fuel' : nat) (pre : list Z) (m : gmap Z Z) (lb rb : Z)
         (s : Solution),
    (fuel <= fuel')%nat ->
    (_build_recursive fuel pre m lb rb s).1 <> Stuck ->
    _build_recursive fuel' pre m lb rb s = _build_recursive fuel pre m lb rb s.
Proof.
  induction fuel as [|fuel IH]; intros fuel' pre m lb rb s Hle Hns.
  - exfalso. apply Hns. reflexivity.
  - destruct fuel' as [|fuel']; [lia|].
    rewrite build_recursive_unfold in Hns. rewrite !build_recursive_unfold.
    destruct (lb >? rb); [reflexivity|].
    destruct (preorder_idx s) as [i|]; [|reflexivity].
    destruct (getitem pre i) as [v|e|]; try reflexivity.
    destruct (m !! v) as [k|]; [|reflexivity].
    unfold join in *.
    destruct (_build_recursive fuel pre m lb (k - 1) _) as [rl s1] eqn:El.
    rewrite (IH fuel' pre m lb (k - 1) _ ltac:(lia)); rewrite El;
      [|destruct rl; simpl in *; congruence].
    destruct rl as [l|e|]; try reflexivity.
    destruct (_build_recursive fuel pre m (k + 1) rb s1) as [rr s2] eqn:Er.
    rewrite (IH fuel' pre m (k + 1) rb s1 ltac:(lia)); rewrite Er;
      [reflexivity|].
    destruct rr; simpl in *; congruence.
Qed.

(** The fuel [buildTree] starts with is enough on every input: the
    recursion run with any larger amount does the same. *)
Lemma buildTree_fuel_stable (pre ino : list Z) (s : Solution) (fuel : nat) :
  (recursion_fuel pre <= fuel)%nat ->
  (buildTree pre ino s).1 <> Stuck
  /\ _build_recursive fuel pre (index_map ino) 0
       (Z.of_nat (length ino) - 1) (mkSolution (Some 0)) =
     buildTree pre ino s.
Proof.
  intros Hle. unfold buildTree, bind, set_preorder_idx.
  destruct (build_recursive_trace (recursion_fuel pre) pre (index_map ino) 0
              (Z.of_nat (length ino) - 1) 0 ltac:(lia))
    as (r & i' & E & _ & _ & Hns).
  assert (Hr : r <> Stuck)
    by (apply Hns; unfold recursion_fuel; lia).
  split; [rewrite E; exact Hr|].
  apply build_recursive_fuel_mono; [exact Hle|]. rewrite E. exact Hr.
Qed.

(** *** The other two constructions never get stuck either *)

Lemma getitem_not_stuck (l : list Z) (i : Z) : getitem l i <> Stuck.
Proof.
  unfold getitem. destruct ((_ <? 0) || _); [discriminate|].
  destruct (l !! _); discriminate.
Qed.

Lemma index_scan_not_stuck (x : Z) (l : list Z) : forall i stop,
  index_scan x l i stop <> Stuck.
Proof.
  induction l as [|y l IH]; intros i stop; simpl; [discriminate|].
  destruct (stop <=? i); [discriminate|].
  destruct (y =? x); [discriminate|]. apply IH.
Qed.

Lemma build_without_map_unfold (fuel : nat) (pre ino : list Z)
    (lb rb : Z) (s : Solution) :
  _build_without_map (S fuel) pre ino lb rb s =
  if lb >? rb then (Return Empty, s)
  else
    match preorder_idx s with
    | None => (Raise AttributeError, s)
    | Some i =>
        match getitem pre i with
        | Return v =>
            match list_index ino v lb (rb + 1) with
            | Return k =>
                join v (_build_without_map fuel pre ino lb (k - 1)
                          (mkSolution (Some (i + 1))))
                       (_build_without_map fuel pre ino (k + 1) rb)
            | Raise e => (Raise e, mkSolution (Some (i + 1)))
            | Stuck => (Stuck, mkSolution (Some (i + 1)))
            end
        | Raise e => (Raise e, s)
        | Stuck => (Stuck, s)
        end
    end.
Proof.
  simpl. destruct (lb >? rb); [reflexivity|].
  unfold bind, get_preorder_idx, lift, set_preorder_idx, join.
  destruct s as [[i|]]; simpl; [|reflexivity].
  destruct (getitem pre i) as [v|e|]; simpl; try reflexivity.
Qed.

(** The cursor only moves forward, and enough fuel never runs out. *)
Lemma build_without_map_trace (fuel : nat) :
  forall (pre ino : list Z) (lb rb i : Z),
    0 <= i ->
    exists r i',
      _build_without_map fuel pre ino lb rb (mkSolution (Some i)) =
      (r, mkSolution (Some i'))
      /\ i <= i'
      /\ (Z.of_nat (length pre) - i < Z.of_nat fuel -> (0 < fuel)%nat ->
          r <> Stuck).
Proof.
  induction fuel as [|fuel IH]; intros pre ino lb rb i Hi.
  - exists Stuck, i. simpl. unfold lift.
    split; [reflexivity|]. split; lia.
  - rewrite build_without_map_unfold. cbn [preorder_idx].
    destruct (lb >? rb).
    { exists (Return Empty), i. split; [reflexivity|]. split; [lia|].
      intros _ _; discriminate. }
    destruct (getitem pre i) as [v|e|] eqn:Hg.
    + destruct (getitem_Return pre i v Hi Hg) as [Hlt _].
      destruct (list_index ino v lb (rb + 1)) as [k|e|] eqn:Hm.
      * destruct (IH pre ino lb (k - 1) (i + 1) ltac:(lia))
          as (rl & i1 & El & Hi1 & Hsl).
        rewrite El. unfold join.
        destruct rl as [l|e|].
        -- destruct (IH pre ino (k + 1) rb i1 ltac:(lia))
             as (rr & i2 & Er & Hi2 & Hsr).
           rewrite Er.
           destruct rr as [r|e|].
           ++ exists (Return (TreeNode v l r)), i2.
              split; [reflexivity|]. split; [lia|]. intros _ _; discriminate.
           ++ exists (Raise e), i2.
              split; [reflexivity|]. split; [lia|]. intros _ _; discriminate.
           ++ exists Stuck, i2.
              split; [reflexivity|]. split; [lia|].
              intros Hf _. apply Hsr; lia.
        -- exists (Raise e), i1.
           split; [reflexivity|]. split; [lia|]. intros _ _; discriminate.
        -- exists Stuck, i1.
           split; [reflexivity|]. split; [lia|].
           intros Hf _. apply Hsl; lia.
      * exists (Raise e), (i + 1).
        split; [reflexivity|]. split; [lia|]. intros _ _; discriminate.
      * exfalso. unfold list_index in Hm.
        exact (index_scan_not_stuck _ _ _ _ Hm).
    + exists (Raise e), i. split; [reflexivity|]. split; [lia|].
      intros _ _; discriminate.
    + exfalso. exact (getitem_not_stuck _ _ Hg).
Qed.

Lemma build_without_map_fuel_mono (fuel : nat) :
  forall (fuel' : nat) (pre ino : list Z) (lb rb : Z) (s : Solution),
    (fuel <= fuel')%nat ->
    (_build_without_map fuel pre ino lb rb s).1 <> Stuck ->
    _build_without_map fuel' pre ino lb rb s =
    _build_without_map fuel pre ino lb rb s.
Proof.
  induction fuel as [|fuel IH]; intros fuel' pre ino lb rb s Hle Hns.
  - exfalso. apply Hns. reflexivity.
  - destruct fuel' as [|fuel']; [lia|].
    rewrite build_without_map_unfold in Hns.
    rewrite !build_without_map_unfold.
    destruct (lb >? rb); [reflexivity|].
    destruct (preorder_idx s) as [i|]; [|reflexivity].
    destruct (getitem pre i) as [v|e|]; try reflexivity.
    destruct (list_index ino v lb (rb + 1)) as [k|e|]; try reflexivity.
    unfold join in *.
    destruct (_build_without_map fuel pre ino lb (k - 1) _)
      as [rl s1] eqn:El.
    rewrite (IH fuel' pre ino lb (k - 1) _ ltac:(lia)); rewrite El;
      [|destruct rl; simpl in *; congruence].
    destruct rl as [l|e|]; try reflexivity.
    destruct (_build_without_map fuel pre ino (k + 1) rb s1)
      as [rr s2] eqn:Er.
    rewrite (IH fuel' pre ino (k + 1) rb s1 ltac:(lia)); rewrite Er;
      [reflexivity|].
    destruct rr; simpl in *; congruence.
Qed.

Lemma buildTree_v2_fuel_stable (pre ino : list Z) (s : Solution)
    (fuel : nat) :
  (recursion_fuel pre <= fuel)%nat ->
  (buildTree_v2 pre ino s).1 <> Stuck
  /\ _build_without_map fuel pre ino 0
       (Z.of_nat (length ino) - 1) (mkSolution (Some 0)) =
     buildTree_v2 pre ino s.
Proof.
  intros Hle. unfold buildTree_v2, bind, set_preorder_idx.
  destruct (build_without_map_trace (recursion_fuel pre) pre ino 0
              (Z.of_nat (length ino) - 1) 0 ltac:(lia))
    as (r & i' & E & _ & Hns).
  assert (Hr : r <> Stuck)
    by (apply Hns; unfold recursion_fuel; lia).
  split; [rewrite E; exact Hr|].
  apply build_without_map_fuel_mono; [exact Hle|]. rewrite E. exact Hr.
Qed.

(** In the loop of approach 3 every reference on the stack, and the one in
    [parent], points into the heap. *)
Lemma pop_matching_in_heap (h : heap) (ino : list Z) (stack : list ref) :
  forall (parent : option ref) (k : Z),
    Forall (fun p => (p < length h)%nat) stack ->
    (forall p, parent = Some p -> (p < length h)%nat) ->
    match pop_matching h ino stack parent k with
    | Return (stack', parent', _) =>
        Forall (fun p => (p < length h)%nat) stack'
        /\ forall p, parent' = Some p -> (p < length h)%nat
    | Raise _ => True
    | Stuck => False
    end.
Proof.
  induction stack as [|top rest IH]; intros parent k Hst Hpar; simpl.
  - split; [constructor | exact Hpar].
  - apply Forall_cons in Hst as [Htop Hrest].
    destruct (lookup_lt_is_Some_2 h top Htop) as [o Ho]. rewrite Ho.
    destruct (getitem ino k) as [x|e|] eqn:Hg; simpl.
    + destruct (val o =? x).
      * apply IH; [exact Hrest|]. intros p [= <-]. exact Htop.
      * split; [|exact Hpar]. constructor; assumption.
    + exact I.
    + exact (getitem_not_stuck _ _ Hg).
Qed.

Lemma build_loop_not_stuck (ino todo : list Z) :
  forall (h : heap) (stack : list ref) (k : Z),
    Forall (fun p => (p < length h)%nat) stack ->
    build_loop ino todo h stack k <> Stuck.
Proof.
  induction todo as [|x todo IH]; intros h stack k Hst; [discriminate|].
  cbn [build_loop new_TreeNode].
  assert (Hst1 : Forall (fun p => (p < length (h ++ [mkNode x None None]))%nat)
                   stack).
  { eapply Forall_impl; [exact Hst|]. intros p Hp. cbv beta in Hp.
    rewrite length_app. simpl. lia. }
  pose proof (pop_matching_in_heap (h ++ [mkNode x None None]) ino stack
                None k Hst1 ltac:(discriminate)) as Hpop.
  destruct (pop_matching _ ino stack None k) as [[[stack' parent'] k']|e|];
    cbn [obind]; [|discriminate|contradiction].
  destruct Hpop as [Hst' Hpar'].
  assert (Hn : (length h < length (h ++ [mkNode x None None]))%nat)
    by (rewrite length_app; simpl; lia).
  destruct parent' as [p|].
  - cbn [obind]. apply IH. unfold set_right. rewrite length_alter.
    constructor; assumption.
  - destruct stack' as [|top rest]; cbn [obind]; [discriminate|].
    apply IH. unfold set_left. rewrite length_alter.
    constructor; assumption.
Qed.

Lemma buildTree_v3_not_stuck (pre ino : list Z) :
  buildTree_v3 pre ino <> Stuck.
Proof.
  destruct pre as [|v todo]; [discriminate|].
  cbn [buildTree_v3 new_TreeNode].
  pose proof (build_loop_not_stuck ino todo ([] ++ [mkNode v None None])
                [length (@nil node)] 0) as H.
  destruct (build_loop ino todo _ _ 0) as [[[h' st'] k']|e|];
    cbn [obind]; [discriminate|discriminate|].
  intros _. apply H; [|reflexivity].
  constructor; [simpl; lia | constructor].
Qed.

(** *** The claims about [buildTree] *)

(** C1: for every tree with pairwise distinct keys, [buildTree] run on its
    preorder and inorder traversals returns a tree whose own preorder and
    inorder traversals are exactly these two lists; that tree is the given
    one, the only tree with these traversals. *)
Theorem buildTree_round_trip (T : tree) (s : Solution) :
  NoDup (preorder T) ->
  exists t s',
    buildTree (preorder T) (inorder T) s = (Return t, s')
    /\ preorder t = preorder T /\ inorder t = inorder T
    /\ forall t', preorder t' = preorder T -> inorder t' = inorder T ->
                  t' = t.
Proof.
  intros Hnd. exists T, (mkSolution (Some (Z.of_nat (size T)))).
  split; [apply buildTree_traversals; exact Hnd|].
  split; [reflexivity|]. split; [reflexivity|].
  intros t' Hp Hi.
  assert (Hnd' : NoDup (preorder t')) by (rewrite Hp; exact Hnd).
  pose proof (buildTree_traversals t' s Hnd') as H1.
  rewrite Hp, Hi, (buildTree_traversals T s Hnd) in H1.
  congruence.
Qed.

Lemma buildTree_round_trip_witness :
  exists t s',
    buildTree [3; 9; 20; 15; 7] [9; 3; 15; 20; 7] (mkSolution None)
    = (Return t, s')
    /\ preorder t = [3; 9; 20; 15; 7] /\ inorder t = [9; 3; 15; 20; 7].
Proof.
  destruct (buildTree_round_trip
              (TreeNode 3 (TreeNode 9 Empty Empty)
                 (TreeNode 20 (TreeNode 15 Empty Empty)
                    (TreeNode 7 Empty Empty)))
              (mkSolution None))
    as (t & s' & H & Hp & Hi & _).
  - simpl. nodup_list.
  - exists t, s'. split; [exact H|]. split; assumption.
Defined.

(** C3: [buildTree] on two empty lists returns the empty tree, without an
    error, and [isValidBST] answers true on the empty tree. *)
Theorem empty_base_case :
  (forall s : Solution,
     buildTree [] [] s = (Return Empty, mkSolution (Some 0)))
  /\ Validator.isValidBST Empty = true.
Proof. split; [intros s|]; reflexivity. Qed.

(** C5: on the preorder and inorder traversals of one tree with pairwise
    distinct keys, the recursion with the dictionary, the recursion with
    the linear scan and the loop with the stack all build that same
    tree. *)
Theorem three_builders_agree (pre ino : list Z) (T : tree) (s : Solution) :
  pre = preorder T -> ino = inorder T -> NoDup pre ->
  (buildTree pre ino s).1 = Return T
  /\ (buildTree_v2 pre ino s).1 = Return T
  /\ exists res, buildTree_v3 pre ino = Return res
                 /\ result_tree res = Some T.
Proof.
  intros -> -> Hnd.
  rewrite buildTree_traversals, buildTree_v2_traversals by exact Hnd.
  split; [reflexivity|]. split; [reflexivity|].
  exists (child T 0%nat, layout 0 T).
  split; [apply buildTree_v3_traversals; exact Hnd|].
  apply result_tree_layout.
Qed.

Lemma three_builders_agree_witness :
  (buildTree [1; 2; 4; 3] [4; 2; 1; 3] (mkSolution None)).1
  = Return (TreeNode 1 (TreeNode 2 (TreeNode 4 Empty Empty) Empty)
                       (TreeNode 3 Empty Empty))
  /\ (buildTree_v2 [1; 2; 4; 3] [4; 2; 1; 3] (mkSolution None)).1
     = Return (TreeNode 1 (TreeNode 2 (TreeNode 4 Empty Empty) Empty)
                          (TreeNode 3 Empty Empty))
  /\ exists res, buildTree_v3 [1; 2; 4; 3] [4; 2; 1; 3] = Return res
       /\ result_tree res
          = Some (TreeNode 1 (TreeNode 2 (TreeNode 4 Empty Empty) Empty)
                             (TreeNode 3 Empty Empty)).
Proof.
  apply (three_builders_agree [1; 2; 4; 3] [4; 2; 1; 3]
           (TreeNode 1 (TreeNode 2 (TreeNode 4 Empty Empty) Empty)
                       (TreeNode 3 Empty Empty))).
  - reflexivity.
  - reflexivity.
  - nodup_list.
Defined.

(** C6: on the traversals of a tree with pairwise distinct keys,
    [buildTree] returns a tree: it raises nothing, so no list index was out
    of range and no dictionary lookup failed, and the recursion does not
    run out; and [isValidBST] answers on every tree. *)
Theorem total_on_valid_input (T : tree) (s : Solution) :
  NoDup (preorder T) ->
  (exists t s', buildTree (preorder T) (inorder T) s = (Return t, s'))
  /\ (forall e, (buildTree (preorder T) (inorder T) s).1 <> Raise e)
  /\ (buildTree (preorder T) (inorder T) s).1 <> Stuck
  /\ forall root : tree,
       Validator.isValidBST root = true \/ Validator.isValidBST root = false.
Proof.
  intros Hnd. rewrite buildTree_traversals by exact Hnd.
  split; [eexists _, _; reflexivity|].
  split; [intros e; discriminate|]. split; [discriminate|].
  intros root. destruct (Validator.isValidBST root); [left|right]; reflexivity.
Qed.

Lemma total_on_valid_input_witness :
  exists t s',
    buildTree [2; 1; 3] [1; 2; 3] (mkSolution None) = (Return t, s').
Proof.
  apply (total_on_valid_input
           (TreeNode 2 (TreeNode 1 Empty Empty) (TreeNode 3 Empty Empty))
           (mkSolution None)).
  simpl. nodup_list.
Defined.

(** C7: when one of the elements of [preorder] that a call of [buildTree]
    consumed is not in [inorder], the call raised [KeyError]: it returned
    no tree. *)
Theorem absent_value_raises_KeyError (pre ino : list Z) (s s' : Solution)
    (r : outcome tree) (v : Z) :
  buildTree pre ino s = (r, s') ->
  v ∈ consumed pre s' -> v ∉ ino ->
  r = Raise KeyError.
Proof.
  unfold buildTree, bind, set_preorder_idx. intros Hrun Hv Hno.
  destruct (build_recursive_trace (recursion_fuel pre) pre (index_map ino) 0
              (Z.of_nat (length ino) - 1) 0 ltac:(lia))
    as (r0 & i' & E & Hi' & Hk & _).
  rewrite E in Hrun. injection Hrun as <- <-.
  unfold consumed in Hv. cbn [preorder_idx] in Hv.
  apply elem_of_take in Hv as (j & Hj & Hlt).
  assert (Hin : r0 <> Raise KeyError -> False).
  { intros Hne. destruct (Hk Hne (Z.of_nat j) ltac:(lia))
      as (v' & Hv' & [k Hm]).
    rewrite Nat2Z.id, Hj in Hv'. injection Hv' as <-.
    apply Hno. eapply index_map_Some. exact Hm. }
  destruct r0 as [t|[]|]; try reflexivity; exfalso; apply Hin; discriminate.
Qed.

Lemma absent_value_raises_KeyError_witness :
  (buildTree [3; 9] [9; 4] (mkSolution None)).1 = Raise KeyError.
Proof.
  apply (absent_value_raises_KeyError [3; 9] [9; 4] (mkSolution None)
           (buildTree [3; 9] [9; 4] (mkSolution None)).2 _ 3).
  - vm_compute. reflexivity.
  - vm_compute. apply elem_of_cons. left. reflexivity.
  - notin_list.
Defined.

(** C8 as the claim states it fails: the cursor is an attribute of the
    instance, and a call leaves it set.  Here a fresh instance has the
    attribute after the call, with the value 1. *)
Lemma cursor_outlives_call :
  buildTree [1] [1] (mkSolution None)
  = (Return (TreeNode 1 Empty Empty), mkSolution (Some 1))
  /\ (buildTree [1] [1] (mkSolution None)).2 <> mkSolution None.
Proof. split; [vm_compute; reflexivity | vm_compute; discriminate]. Qed.

(** C10: with a non-empty [preorder] and an empty [inorder], [buildTree]
    returns the empty tree: it raises nothing and leaves the cursor at 0,
    no element of [preorder] consumed. *)
Theorem empty_inorder_gives_empty_tree (pre : list Z) (s : Solution) :
  pre <> [] ->
  buildTree pre [] s = (Return Empty, mkSolution (Some 0))
  /\ consumed pre (buildTree pre [] s).2 = [].
Proof.
  intros _.
  assert (H : buildTree pre [] s = (Return Empty, mkSolution (Some 0)))
    by reflexivity.
  split; [exact H|]. rewrite H. reflexivity.
Qed.

Lemma empty_inorder_gives_empty_tree_witness :
  buildTree [3; 9; 20] [] (mkSolution None)
  = (Return Empty, mkSolution (Some 0)).
Proof.
  apply (empty_inorder_gives_empty_tree [3; 9; 20] (mkSolution None)).
  discriminate.
Defined.

End BuilderFacts.

(** * Further properties *)

(** ** The validator *)

Module ValidatorExtra.
Import Validator ValidatorFacts.

(** A tree is ordered exactly when its inorder traversal is strictly
    increasing. *)
Lemma bst_rec_sorted (t : tree) :
  bst_rec t <-> StronglySorted Z.lt (inorder t).
Proof.
  induction t as [|v l IHl r IHr]; simpl.
  - split; [intros _; constructor | intros _; exact I].
  - rewrite StronglySorted_app, StronglySorted_cons, Forall_forall.
    rewrite IHl, IHr. split.
    + intros (Hl & Hr & Hsl & Hsr). split; [|split; [exact Hsl|]].
      * intros x1 x2 H1 H2. apply elem_of_cons in H2 as [->|H2].
        -- apply Hl. exact H1.
        -- specialize (Hl x1 H1). specialize (Hr x2 H2). lia.
      * split; [exact Hr | exact Hsr].
    + intros (Hlr & Hsl & Hr & Hsr). split; [|split; [exact Hr|]].
      * intros x Hx. apply (Hlr x v Hx). apply elem_of_cons. left.
        reflexivity.
      * split; assumption.
Qed.

Lemma StronglySorted_lt_NoDup (l : list Z) :
  StronglySorted Z.lt l -> NoDup l.
Proof.
  induction 1 as [|x l Hs IH Hx]; constructor; [|exact IH].
  intros Hin. rewrite Forall_forall in Hx. specialize (Hx x Hin). lia.
Qed.

(** X1: the contract of [helper]: called with the bounds [low] and [high]
    it answers true exactly when the subtree is ordered and every one of its
    keys lies strictly between [low] and [high]. *)
Theorem helper_contract (node : tree) (low high : bound) :
  helper node low high = true <->
  bst_ordered node /\
  forall x, x ∈ inorder node ->
    bound_ltb low (Fin x) = true /\ bound_ltb (Fin x) high = true.
Proof. rewrite helper_spec, bst_ordered_rec. reflexivity. Qed.

(** X2: [isValidBST] answers true exactly when the inorder traversal of the
    tree is strictly increasing. *)
Theorem isValidBST_iff_inorder_increasing (root : tree) :
  isValidBST root = true <-> StronglySorted Z.lt (inorder root).
Proof. rewrite isValidBST_rec. apply bst_rec_sorted. Qed.

(** X3: a tree that [isValidBST] accepts has no key twice: equal keys are
    rejected on either side. *)
Theorem isValidBST_no_duplicate_keys (root : tree) :
  isValidBST root = true -> NoDup (inorder root).
Proof.
  intros H. apply StronglySorted_lt_NoDup, bst_rec_sorted, isValidBST_rec.
  exact H.
Qed.

Lemma isValidBST_no_duplicate_keys_witness :
  NoDup (inorder (TreeNode 2 (TreeNode 1 Empty Empty)
                             (TreeNode 3 Empty Empty))).
Proof.
  apply (isValidBST_no_duplicate_keys
           (TreeNode 2 (TreeNode 1 Empty Empty) (TreeNode 3 Empty Empty))).
  reflexivity.
Defined.

Lemma bst_rec_subtree (s t : tree) : subtree s t -> bst_rec t -> bst_rec s.
Proof.
  induction 1 as [|v l r _ IH|v l r _ IH]; intros Ht.
  - exact Ht.
  - apply IH. simpl in Ht. tauto.
  - apply IH. simpl in Ht. tauto.
Qed.

(** X4: every subtree of a tree that [isValidBST] accepts is accepted
    too. *)
Theorem isValidBST_subtree (s root : tree) :
  subtree s root -> isValidBST root = true -> isValidBST s = true.
Proof.
  intros Hsub H. apply isValidBST_rec. apply (bst_rec_subtree s root Hsub).
  apply isValidBST_rec. exact H.
Qed.

Lemma isValidBST_subtree_witness :
  isValidBST (TreeNode 3 Empty Empty) = true.
Proof.
  apply (isValidBST_subtree (TreeNode 3 Empty Empty)
           (TreeNode 2 (TreeNode 1 Empty Empty) (TreeNode 3 Empty Empty))).
  - apply subtree_right. apply subtree_here.
  - reflexivity.
Defined.

End ValidatorExtra.

(** ** The recursions of approaches 1 and 2 on arbitrary input *)

Module BuilderExtra.
Import Builder BuilderSpec BuilderFacts RunSpec.

Lemma getitem_Raise (l : list Z) (i : Z) (e : exn) :
  0 <= i -> getitem l i = Raise e ->
  e = IndexError /\ Z.of_nat (length l) <= i.
Proof.
  intros Hi. unfold getitem.
  destruct (Z.ltb_spec i 0) as [?|_]; [lia|].
  destruct (Z.ltb_spec i 0) as [?|_]; [lia|].
  destruct (Z.leb_spec (Z.of_nat (length l)) i) as [Hle|Hlt]; simpl.
  - intros [= <-]. split; [reflexivity | exact Hle].
  - destruct (l !! Z.to_nat i) eqn:E; [discriminate|].
    apply lookup_ge_None in E. lia.
Qed.

(** Every call of [_build_recursive] that does not run out of fuel follows
    the rules of [run]. *)
Lemma build_recursive_run (fuel : nat) :
  forall (pre : list Z) (m : gmap Z Z) (lb rb : Z) (i : nat)
         (r : outcome tree) (s' : Solution),
    _build_recursive fuel pre m lb rb (mkSolution (Some (Z.of_nat i)))
    = (r, s') ->
    r <> Stuck ->
    exists i', s' = mkSolution (Some (Z.of_nat i'))
               /\ run pre (locate_dict m) lb rb i r i'.
Proof.
  induction fuel as [|fuel IH]; intros pre m lb rb i r s' Hrun Hns.
  - simpl in Hrun. unfold lift in Hrun. congruence.
  - rewrite build_recursive_unfold in Hrun. cbn [preorder_idx] in Hrun.
    destruct (Z.gtb_spec lb rb) as [Hgt|Hle].
    { injection Hrun as <- <-. exists i. split; [reflexivity|].
      apply run_base. lia. }
    destruct (getitem pre (Z.of_nat i)) as [v|e|] eqn:Hg.
    + destruct (getitem_Return pre _ v (Nat2Z.is_nonneg i) Hg) as [_ Hv].
      rewrite Nat2Z.id in Hv.
      replace (Z.of_nat i + 1) with (Z.of_nat (S i)) in Hrun by lia.
      destruct (m !! v) as [j|] eqn:Hm.
      * assert (Hloc : locate_dict m v lb rb = Return j)
          by (unfold locate_dict, dict_getitem; rewrite Hm; reflexivity).
        unfold join in Hrun.
        destruct (_build_recursive fuel pre m lb (j - 1) _)
          as [rl s1] eqn:El.
        destruct rl as [l|e|].
        -- destruct (IH _ _ _ _ _ _ _ El ltac:(discriminate))
             as (i1 & -> & Hl).
           destruct (_build_recursive fuel pre m (j + 1) rb _)
             as [rr s2] eqn:Er.
           destruct rr as [t|e|].
           ++ destruct (IH _ _ _ _ _ _ _ Er ltac:(discriminate))
                as (i2 & -> & Hr).
              injection Hrun as <- <-. exists i2. split; [reflexivity|].
              eapply run_node; eassumption.
           ++ destruct (IH _ _ _ _ _ _ _ Er ltac:(discriminate))
                as (i2 & -> & Hr).
              injection Hrun as <- <-. exists i2. split; [reflexivity|].
              eapply run_right_raises; eassumption.
           ++ injection Hrun as <- <-. congruence.
        -- destruct (IH _ _ _ _ _ _ _ El ltac:(discriminate))
             as (i1 & -> & Hl).
           injection Hrun as <- <-. exists i1. split; [reflexivity|].
           eapply run_left_raises; eassumption.
        -- injection Hrun as <- <-. congruence.
      * injection Hrun as <- <-. exists (S i). split; [reflexivity|].
        eapply run_unlocated; [exact Hle | exact Hv |].
        unfold locate_dict, dict_getitem. rewrite Hm. reflexivity.
    + destruct (getitem_Raise pre _ e (Nat2Z.is_nonneg i) Hg) as [-> Hlen].
      injection Hrun as <- <-. exists i. split; [reflexivity|].
      apply run_exhausted; [exact Hle | lia].
    + exfalso. exact (getitem_not_stuck _ _ Hg).
Qed.

(** The same for [_build_without_map]. *)
Lemma build_without_map_run (fuel : nat) :
  forall (pre ino : list Z) (lb rb : Z) (i : nat)
         (r : outcome tree) (s' : Solution),
    _build_without_map fuel pre ino lb rb (mkSolution (Some (Z.of_nat i)))
    = (r, s') ->
    r <> Stuck ->
    exists i', s' = mkSolution (Some (Z.of_nat i'))
               /\ run pre (locate_scan ino) lb rb i r i'.
Proof.
  induction fuel as [|fuel IH]; intros pre ino lb rb i r s' Hrun Hns.
  - simpl in Hrun. unfold lift in Hrun. congruence.
  - rewrite build_without_map_unfold in Hrun. cbn [preorder_idx] in Hrun.
    destruct (Z.gtb_spec lb rb) as [Hgt|Hle].
    { injection Hrun as <- <-. exists i. split; [reflexivity|].
      apply run_base. lia. }
    destruct (getitem pre (Z.of_nat i)) as [v|e|] eqn:Hg.
    + destruct (getitem_Return pre _ v (Nat2Z.is_nonneg i) Hg) as [_ Hv].
      rewrite Nat2Z.id in Hv.
      replace (Z.of_nat i + 1) with (Z.of_nat (S i)) in Hrun by lia.
      destruct (list_index ino v lb (rb + 1)) as [j|e|] eqn:Hm.
      * assert (Hloc : locate_scan ino v lb rb = Return j) by exact Hm.
        unfold join in Hrun.
        destruct (_build_without_map fuel pre ino lb (j - 1) _)
          as [rl s1] eqn:El.
        destruct rl as [l|e|].
        -- destruct (IH _ _ _ _ _ _ _ El ltac:(discriminate))
             as (i1 & -> & Hl).
           destruct (_build_without_map fuel pre ino (j + 1) rb _)
             as [rr s2] eqn:Er.
           destruct rr as [t|e|].
           ++ destruct (IH _ _ _ _ _ _ _ Er ltac:(discriminate))
                as (i2 & -> & Hr).
              injection Hrun as <- <-. exists i2. split; [reflexivity|].
              eapply run_node; eassumption.
           ++ destruct (IH _ _ _ _ _ _ _ Er ltac:(discriminate))
                as (i2 & -> & Hr).
              injection Hrun as <- <-. exists i2. split; [reflexivity|].
              eapply run_right_raises; eassumption.
           ++ injection Hrun as <- <-. congruence.
        -- destruct (IH _ _ _ _ _ _ _ El ltac:(discriminate))
             as (i1 & -> & Hl).
           injection Hrun as <- <-. exists i1. split; [reflexivity|].
           eapply run_left_raises; eassumption.
        -- injection Hrun as <- <-. congruence.
      * injection Hrun as <- <-. exists (S i). split; [reflexivity|].
        eapply run_unlocated; [exact Hle | exact Hv | exact Hm].
      * exfalso. unfold list_index in Hm.
        exact (index_scan_not_stuck _ _ _ _ Hm).
    + destruct (getitem_Raise pre _ e (Nat2Z.is_nonneg i) Hg) as [-> Hlen].
      injection Hrun as <- <-. exists i. split; [reflexivity|].
      apply run_exhausted; [exact Hle | lia].
    + exfalso. exact (getitem_not_stuck _ _ Hg).
Qed.

Lemma buildTree_run (pre ino : list Z) (s : Solution) :
  exists r k,
    buildTree pre ino s = (r, mkSolution (Some (Z.of_nat k)))
    /\ run pre (locate_dict (index_map ino)) 0
         (Z.of_nat (length ino) - 1) 0 r k.
Proof.
  destruct (buildTree_fuel_stable pre ino s (recursion_fuel pre) ltac:(lia))
    as [Hns _].
  unfold buildTree, bind, set_preorder_idx in *.
  destruct (_build_recursive _ pre _ 0 _ _) as [r s'] eqn:E.
  simpl in Hns.
  destruct (build_recursive_run _ pre _ 0 _ 0%nat r s' E Hns)
    as (k & -> & Hrun).
  exists r, k. split; [reflexivity | exact Hrun].
Qed.

Lemma buildTree_v2_run (pre ino : list Z) (s : Solution) :
  exists r k,
    buildTree_v2 pre ino s = (r, mkSolution (Some (Z.of_nat k)))
    /\ run pre (locate_scan ino) 0 (Z.of_nat (length ino) - 1) 0 r k.
Proof.
  destruct (buildTree_v2_fuel_stable pre ino s (recursion_fuel pre)
              ltac:(lia)) as [Hns _].
  unfold buildTree_v2, bind, set_preorder_idx in *.
  destruct (_build_without_map _ pre _ 0 _ _) as [r s'] eqn:E.
  simpl in Hns.
  destruct (build_without_map_run _ pre _ 0 _ 0%nat r s' E Hns)
    as (k & -> & Hrun).
  exists r, k. split; [reflexivity | exact Hrun].
Qed.

Section RunFacts.

Variable pre : list Z.
Variable locate : Z -> Z -> Z -> outcome Z.

(** The cursor only moves forward and never passes the end of
    [preorder]. *)
Lemma run_cursor (lb rb : Z) (i i' : nat) (r : outcome tree) :
  run pre locate lb rb i r i' ->
  (i <= i')%nat /\ ((i <= length pre)%nat -> (i' <= length pre)%nat).
Proof.
  induction 1 as [lb rb i Hb|lb rb i Hb Hlen|lb rb i v e Hb Hv Hloc
                 |lb rb i v j e i1 Hb Hv Hloc _ IHl
                 |lb rb i v j l i1 e i2 Hb Hv Hloc _ IHl _ IHr
                 |lb rb i v j l i1 r i2 Hb Hv Hloc _ IHl _ IHr];
    try (apply lookup_lt_Some in Hv); lia.
Qed.

(** A returned tree has one node for each element the call consumed, in
    preorder, and at least as many nodes as the range has positions. *)
Lemma run_Return_shape (lb rb : Z) (i i' : nat) (r : outcome tree) :
  run pre locate lb rb i r i' ->
  forall t, r = Return t ->
    i' = (i + size t)%nat
    /\ preorder t = take (size t) (drop i pre)
    /\ rb - lb + 1 <= Z.of_nat (size t).
Proof.
  induction 1 as [lb rb i Hb|lb rb i Hb Hlen|lb rb i v e Hb Hv Hloc
                 |lb rb i v j e i1 Hb Hv Hloc _ IHl
                 |lb rb i v j l i1 e i2 Hb Hv Hloc _ IHl _ IHr
                 |lb rb i v j l i1 r i2 Hb Hv Hloc _ IHl _ IHr];
    intros t Ht; try discriminate.
  - injection Ht as <-. simpl. split; [lia|]. split; [reflexivity | lia].
  - injection Ht as <-.
    destruct (IHl l eq_refl) as (-> & Hpl & Hsl).
    destruct (IHr r eq_refl) as (-> & Hpr & Hsr).
    cbn [size preorder]. split; [lia|]. split; [|lia].
    rewrite (drop_S _ _ _ Hv). cbn [take]. f_equal.
    rewrite <- take_take_drop, drop_drop, <- Hpl, <- Hpr. reflexivity.
Qed.

(** Every key of a returned tree was located. *)
Lemma run_located (lb rb : Z) (i i' : nat) (r : outcome tree) :
  run pre locate lb rb i r i' ->
  forall t, r = Return t ->
    forall x, x ∈ preorder t ->
      exists lb' rb' j, locate x lb' rb' = Return j.
Proof.
  induction 1 as [lb rb i Hb|lb rb i Hb Hlen|lb rb i v e Hb Hv Hloc
                 |lb rb i v j e i1 Hb Hv Hloc _ IHl
                 |lb rb i v j l i1 e i2 Hb Hv Hloc _ IHl _ IHr
                 |lb rb i v j l i1 r i2 Hb Hv Hloc _ IHl _ IHr];
    intros t Ht x Hx; try discriminate.
  - injection Ht as <-. inversion Hx.
  - injection Ht as <-. simpl in Hx.
    apply elem_of_cons in Hx as [->|Hx]; [eauto|].
    apply elem_of_app in Hx as [Hx|Hx]; [eapply IHl | eapply IHr]; eauto.
Qed.

(** What makes a call raise: [preorder] is used up, or the element
    consumed last could not be located. *)
Lemma run_Raise_cause (lb rb : Z) (i i' : nat) (r : outcome tree) :
  run pre locate lb rb i r i' ->
  forall e, r = Raise e ->
    (e = IndexError /\ (length pre <= i')%nat)
    \/ exists k v lb' rb',
         i' = S k /\ pre !! k = Some v /\ locate v lb' rb' = Raise e.
Proof.
  induction 1 as [lb rb i Hb|lb rb i Hb Hlen|lb rb i v e Hb Hv Hloc
                 |lb rb i v j e i1 Hb Hv Hloc _ IHl
                 |lb rb i v j l i1 e i2 Hb Hv Hloc _ IHl _ IHr
                 |lb rb i v j l i1 r i2 Hb Hv Hloc _ IHl _ IHr];
    intros e' He; try discriminate.
  - injection He as <-. left. split; [reflexivity | exact Hlen].
  - injection He as <-. right. exists i, v, lb, rb. auto.
  - apply IHl. exact He.
  - apply IHr. exact He.
Qed.

Variable ino : list Z.

Lemma slice_node (lb rb j : Z) (v : Z) :
  0 <= lb -> lb <= j -> j <= rb -> ino !! Z.to_nat j = Some v ->
  slice ino lb (j - 1) ++ v :: slice ino (j + 1) rb = slice ino lb rb.
Proof.
  intros Hlb Hlj Hjr Hv. unfold slice.
  pose proof (take_drop_middle ino _ v Hv) as Hmid.
  pose proof (lookup_lt_Some _ _ _ Hv) as Hlt.
  set (a := Z.to_nat lb). set (n := Z.to_nat j).
  replace (Z.to_nat (j - 1 - lb + 1)) with (n - a)%nat by (unfold a, n; lia).
  replace (Z.to_nat (rb - (j + 1) + 1)) with (Z.to_nat (rb - j)) by lia.
  replace (Z.to_nat (j + 1)) with (S n) by (unfold n; lia).
  replace (Z.to_nat (rb - lb + 1))
    with ((n - a) + S (Z.to_nat (rb - j)))%nat by (unfold a, n; lia).
  rewrite <- take_take_drop. f_equal.
  rewrite drop_drop.
  replace (a + (n - a))%nat with n by (unfold a, n; lia).
  subst a n. rewrite (drop_S _ _ _ Hv). reflexivity.
Qed.

(** When a located position always holds the value looked for, a returned
    tree with no more nodes than the range has positions has exactly the
    range as its inorder traversal. *)
Hypothesis locate_sound : forall v lb rb j,
  0 <= lb -> lb <= rb -> locate v lb rb = Return j ->
  0 <= j /\ ino !! Z.to_nat j = Some v.

Lemma run_inorder (lb rb : Z) (i i' : nat) (r : outcome tree) :
  run pre locate lb rb i r i' ->
  forall t, r = Return t ->
    0 <= lb -> Z.of_nat (size t) <= rb - lb + 1 ->
    inorder t = slice ino lb rb.
Proof.
  induction 1 as [lb rb i Hb|lb rb i Hb Hlen|lb rb i v e Hb Hv Hloc
                 |lb rb i v j e i1 Hb Hv Hloc _ IHl
                 |lb rb i v j l i1 e i2 Hb Hv Hloc _ IHl _ IHr
                 |lb rb i v j l i1 r i2 Hb Hv Hloc Hrl IHl Hrr IHr];
    intros t Ht Hlb Hsz; try discriminate.
  - injection Ht as <-. unfold slice.
    replace (Z.to_nat (rb - lb + 1)) with 0%nat by lia. reflexivity.
  - injection Ht as <-. cbn [size] in Hsz.
    destruct (locate_sound v lb rb j Hlb Hb Hloc) as [Hj Hvj].
    destruct (run_Return_shape _ _ _ _ _ Hrl l eq_refl) as (_ & _ & Hsl).
    destruct (run_Return_shape _ _ _ _ _ Hrr r eq_refl) as (_ & _ & Hsr).
    cbn [inorder].
    rewrite (IHl l eq_refl Hlb ltac:(lia)).
    rewrite (IHr r eq_refl ltac:(lia) ltac:(lia)).
    apply slice_node; (assumption || lia).
Qed.

(** When a located position moreover lies inside the range, a returned
    tree has exactly as many nodes as the range has positions. *)
Hypothesis locate_in_range : forall v lb rb j,
  0 <= lb -> lb <= rb -> locate v lb rb = Return j -> lb <= j <= rb.

Lemma run_size_exact (lb rb : Z) (i i' : nat) (r : outcome tree) :
  run pre locate lb rb i r i' ->
  forall t, r = Return t ->
    0 <= lb -> lb <= rb + 1 ->
    Z.of_nat (size t) = rb - lb + 1.
Proof.
  induction 1 as [lb rb i Hb|lb rb i Hb Hlen|lb rb i v e Hb Hv Hloc
                 |lb rb i v j e i1 Hb Hv Hloc _ IHl
                 |lb rb i v j l i1 e i2 Hb Hv Hloc _ IHl _ IHr
                 |lb rb i v j l i1 r i2 Hb Hv Hloc Hrl IHl Hrr IHr];
    intros t Ht Hlb Hsz; try discriminate.
  - injection Ht as <-. simpl. lia.
  - injection Ht as <-. cbn [size].
    pose proof (locate_in_range v lb rb j Hlb Hb Hloc) as Hj.
    pose proof (IHl l eq_refl Hlb ltac:(lia)).
    pose proof (IHr r eq_refl ltac:(lia) ltac:(lia)).
    lia.
Qed.

End RunFacts.

(** *** The dictionary and the scan *)

Lemma foldl_store_last (l : list Z) : forall (m : gmap Z Z) (k v j : Z),
  foldl store m (enumerate_from k l) !! v = Some j ->
  ((v ∉ l) /\ m !! v = Some j)
  \/ exists i, l !! i = Some v /\ j = k + Z.of_nat i /\ v ∉ drop (S i) l.
Proof.
  induction l as [|x l IH]; intros m k v j H; simpl in H.
  - left. split; [apply not_elem_of_nil | exact H].
  - apply IH in H as [[Hnot Hm]|(i & Hi & -> & Hlast)].
    + unfold store in Hm. simpl in Hm.
      destruct (decide (x = v)) as [->|Hne].
      * rewrite lookup_insert_eq in Hm. injection Hm as <-.
        right. exists 0%nat. split; [reflexivity|]. split; [lia|].
        exact Hnot.
      * rewrite lookup_insert_ne in Hm by exact Hne.
        left. split; [|exact Hm]. apply not_elem_of_cons. split; congruence.
    + right. exists (S i). split; [exact Hi|]. split; [lia | exact Hlast].
Qed.

Lemma foldl_store_is_Some (l : list Z) : forall (m : gmap Z Z) (k v : Z),
  v ∈ l -> is_Some (foldl store m (enumerate_from k l) !! v).
Proof.
  induction l as [|x l IH]; intros m k v Hv; [inversion Hv|].
  simpl. destruct (decide (v ∈ l)) as [Hin|Hnot]; [apply IH; exact Hin|].
  apply elem_of_cons in Hv as [->|Hv]; [|contradiction].
  rewrite foldl_store_notin by exact Hnot.
  unfold store. simpl. rewrite lookup_insert_eq. eexists; reflexivity.
Qed.

Lemma index_map_Some_last (ino : list Z) (v j : Z) :
  index_map ino !! v = Some j ->
  exists i, j = Z.of_nat i /\ ino !! i = Some v /\ v ∉ drop (S i) ino.
Proof.
  unfold index_map. intros H.
  apply foldl_store_last in H as [[_ H]|(i & Hi & -> & Hlast)].
  - rewrite lookup_empty in H. discriminate.
  - exists i. split; [lia|]. split; assumption.
Qed.

Lemma last_occurrence_unique (l : list Z) (v : Z) (i i' : nat) :
  l !! i = Some v -> v ∉ drop (S i) l ->
  l !! i' = Some v -> v ∉ drop (S i') l ->
  i = i'.
Proof.
  intros Hi Hlast Hi' Hlast'.
  destruct (Nat.lt_trichotomy i i') as [Hlt|[->|Hlt]]; [|reflexivity|].
  - exfalso. apply Hlast. apply list_elem_of_lookup.
    exists (i' - S i)%nat. rewrite lookup_drop.
    replace (S i + (i' - S i))%nat with i' by lia. exact Hi'.
  - exfalso. apply Hlast'. apply list_elem_of_lookup.
    exists (i - S i')%nat. rewrite lookup_drop.
    replace (S i' + (i - S i'))%nat with i by lia. exact Hi.
Qed.

Lemma locate_dict_sound (ino : list Z) (v lb rb j : Z) :
  0 <= lb -> lb <= rb ->
  locate_dict (index_map ino) v lb rb = Return j ->
  0 <= j /\ ino !! Z.to_nat j = Some v.
Proof.
  intros _ _. unfold locate_dict, dict_getitem.
  destruct (index_map ino !! v) as [j'|] eqn:Hm; [|discriminate].
  intros [= <-].
  destruct (index_map_Some_last _ _ _ Hm) as (i & -> & Hi & _).
  rewrite Nat2Z.id. split; [lia | exact Hi].
Qed.

Lemma index_scan_Return (x : Z) (l : list Z) : forall (i stop j : Z),
  index_scan x l i stop = Return j ->
  i <= j < stop /\ l !! Z.to_nat (j - i) = Some x.
Proof.
  induction l as [|y l IH]; intros i stop j H; simpl in H; [discriminate|].
  destruct (Z.leb_spec stop i) as [?|Hlt]; [discriminate|].
  destruct (Z.eqb_spec y x) as [->|Hne].
  - injection H as <-. rewrite Z.sub_diag. split; [lia | reflexivity].
  - apply IH in H as [Hj Hl]. split; [lia|].
    replace (Z.to_nat (j - i)) with (S (Z.to_nat (j - (i + 1)))) by lia.
    exact Hl.
Qed.

Lemma list_index_Return (ino : list Z) (v start stop j : Z) :
  0 <= start -> 0 <= stop ->
  list_index ino v start stop = Return j ->
  start <= j < stop /\ ino !! Z.to_nat j = Some v.
Proof.
  intros Hs Hp. unfold list_index, slice_bound.
  destruct (Z.ltb_spec start 0) as [?|_]; [lia|].
  destruct (Z.ltb_spec stop 0) as [?|_]; [lia|].
  intros H. apply index_scan_Return in H as [Hj Hl].
  split; [exact Hj|]. rewrite lookup_drop in Hl.
  replace (Z.to_nat start + Z.to_nat (j - start))%nat with (Z.to_nat j)
    in Hl by lia.
  exact Hl.
Qed.

Lemma locate_scan_sound (ino : list Z) (v lb rb j : Z) :
  0 <= lb -> lb <= rb ->
  locate_scan ino v lb rb = Return j ->
  0 <= j /\ ino !! Z.to_nat j = Some v.
Proof.
  intros Hlb Hb H. unfold locate_scan in H.
  apply list_index_Return in H as [Hj Hl]; [|lia|lia].
  split; [lia | exact Hl].
Qed.

Lemma locate_scan_in_range (ino : list Z) (v lb rb j : Z) :
  0 <= lb -> lb <= rb ->
  locate_scan ino v lb rb = Return j -> lb <= j <= rb.
Proof.
  intros Hlb Hb H. unfold locate_scan in H.
  apply list_index_Return in H as [Hj _]; lia.
Qed.

Lemma slice_all (ino : list Z) :
  slice ino 0 (Z.of_nat (length ino) - 1) = ino.
Proof.
  unfold slice. simpl. rewrite drop_0. apply take_ge. lia.
Qed.

(** *** What a returned tree looks like, on any input *)

Lemma buildTree_Return_facts (pre ino : list Z) (s s' : Solution) (t : tree) :
  buildTree pre ino s = (Return t, s') ->
  s' = mkSolution (Some (Z.of_nat (size t)))
  /\ preorder t = take (size t) pre
  /\ (length ino <= size t <= length pre)%nat
  /\ (forall x, x ∈ preorder t -> x ∈ ino)
  /\ ((size t <= length ino)%nat -> inorder t = ino).
Proof.
  intros H. destruct (buildTree_run pre ino s) as (r & k & E & Hrun).
  rewrite E in H. injection H as -> <-.
  destruct (run_Return_shape _ _ _ _ _ _ _ Hrun t eq_refl)
    as (-> & Hp & Hsz).
  destruct (run_cursor _ _ _ _ _ _ _ Hrun) as [_ Hc].
  rewrite drop_0 in Hp. simpl in *.
  split; [reflexivity|]. split; [exact Hp|]. split; [lia|]. split.
  - intros x Hx.
    destruct (run_located _ _ _ _ _ _ _ Hrun t eq_refl x Hx)
      as (lb' & rb' & j & Hloc).
    unfold locate_dict, dict_getitem in Hloc.
    destruct (index_map ino !! x) as [j'|] eqn:Hm; [|discriminate].
    eapply index_map_Some. exact Hm.
  - intros Hle.
    transitivity (slice ino 0 (Z.of_nat (length ino) - 1));
      [|apply slice_all].
    eapply (run_inorder pre _ ino (locate_dict_sound ino));
      [exact Hrun | reflexivity | lia | lia].
Qed.

Lemma buildTree_v2_Return_facts (pre ino : list Z) (s s' : Solution)
    (t : tree) :
  buildTree_v2 pre ino s = (Return t, s') ->
  s' = mkSolution (Some (Z.of_nat (length ino)))
  /\ size t = length ino
  /\ inorder t = ino
  /\ preorder t = take (length ino) pre
  /\ (length ino <= length pre)%nat.
Proof.
  intros H. destruct (buildTree_v2_run pre ino s) as (r & k & E & Hrun).
  rewrite E in H. injection H as -> <-.
  destruct (run_Return_shape _ _ _ _ _ _ _ Hrun t eq_refl)
    as (-> & Hp & _).
  destruct (run_cursor _ _ _ _ _ _ _ Hrun) as [_ Hc].
  pose proof (run_size_exact pre _ (locate_scan_in_range ino)
                _ _ _ _ _ Hrun t eq_refl ltac:(lia) ltac:(lia)) as Hsz.
  assert (Hsize : size t = length ino) by lia.
  rewrite drop_0 in Hp. simpl in *. rewrite Hsize in *.
  split; [reflexivity|]. split; [reflexivity|]. split; [|split; [exact Hp|lia]].
  transitivity (slice ino 0 (Z.of_nat (length ino) - 1));
    [|apply slice_all].
  eapply (run_inorder pre _ ino (locate_scan_sound ino));
    [exact Hrun | reflexivity | lia | lia].
Qed.

Lemma index_scan_Raise (x : Z) (l : list Z) : forall (i stop : Z) (e : exn),
  index_scan x l i stop = Raise e -> e = ValueError.
Proof.
  induction l as [|y l IH]; intros i stop e H; simpl in H; [congruence|].
  destruct (stop <=? i); [congruence|].
  destruct (y =? x); [discriminate|]. eapply IH. exact H.
Qed.

Lemma index_map_None (ino : list Z) (v : Z) :
  index_map ino !! v = None <-> v ∉ ino.
Proof.
  split.
  - intros H Hin. apply (foldl_store_is_Some ino ∅ 0) in Hin.
    unfold index_map in H. rewrite H in Hin. destruct Hin; discriminate.
  - intros Hnot. destruct (index_map ino !! v) as [j|] eqn:Hm; [|reflexivity].
    exfalso. apply Hnot. eapply index_map_Some. exact Hm.
Qed.

Lemma buildTree_Raise_facts (pre ino : list Z) (s s' : Solution) (e : exn) :
  buildTree pre ino s = (Raise e, s') ->
  (e = IndexError /\ s' = mkSolution (Some (Z.of_nat (length pre))))
  \/ (e = KeyError /\
      exists k v, s' = mkSolution (Some (Z.of_nat (S k)))
                  /\ pre !! k = Some v /\ v ∉ ino).
Proof.
  intros H. destruct (buildTree_run pre ino s) as (r & k & E & Hrun).
  rewrite E in H. injection H as -> <-.
  destruct (run_cursor _ _ _ _ _ _ _ Hrun) as [_ Hc].
  destruct (run_Raise_cause _ _ _ _ _ _ _ Hrun e eq_refl)
    as [[-> Hlen]|(k' & v & lb' & rb' & -> & Hv & Hloc)].
  - left. split; [reflexivity|]. do 3 f_equal. simpl in Hc. lia.
  - right. unfold locate_dict, dict_getitem in Hloc.
    destruct (index_map ino !! v) as [j|] eqn:Hm; [discriminate|].
    injection Hloc as <-. split; [reflexivity|].
    exists k', v. split; [reflexivity|]. split; [exact Hv|].
    apply index_map_None. exact Hm.
Qed.

Lemma buildTree_v2_Raise_facts (pre ino : list Z) (s s' : Solution)
    (e : exn) :
  buildTree_v2 pre ino s = (Raise e, s') ->
  (e = IndexError /\ s' = mkSolution (Some (Z.of_nat (length pre))))
  \/ e = ValueError.
Proof.
  intros H. destruct (buildTree_v2_run pre ino s) as (r & k & E & Hrun).
  rewrite E in H. injection H as -> <-.
  destruct (run_cursor _ _ _ _ _ _ _ Hrun) as [_ Hc].
  destruct (run_Raise_cause _ _ _ _ _ _ _ Hrun e eq_refl)
    as [[-> Hlen]|(k' & v & lb' & rb' & -> & Hv & Hloc)].
  - left. split; [reflexivity|]. do 3 f_equal. simpl in Hc. lia.
  - right. unfold locate_scan, list_index in Hloc.
    eapply index_scan_Raise. exact Hloc.
Qed.

Lemma buildTree_not_Stuck (pre ino : list Z) (s : Solution) :
  (buildTree pre ino s).1 <> Stuck.
Proof.
  apply (buildTree_fuel_stable pre ino s (recursion_fuel pre)). lia.
Qed.

(** C8, amended: what [buildTree] returns, and the state it leaves the
    instance in, depend on the two lists only, not on the state an earlier
    call left behind, since the cursor is set to 0 on entry.  The cursor
    itself is an attribute of the instance, which every call leaves set, at
    a position [k] within [preorder]: when a tree is returned, [k] is the
    number of its nodes and the first [k] elements of [preorder] are its
    preorder traversal; on [IndexError], [k] is the length of [preorder];
    on [KeyError], [k] is one past the position of the element of
    [preorder] that [inorder] lacks. *)
Theorem result_independent_of_prior_state :
  (forall (pre ino : list Z) (s1 s2 : Solution),
     buildTree pre ino s1 = buildTree pre ino s2)
  /\ (forall (pre ino : list Z) (s : Solution),
        exists k : nat,
          (buildTree pre ino s).2 = mkSolution (Some (Z.of_nat k))
          /\ (k <= length pre)%nat
          /\ match (buildTree pre ino s).1 with
             | Return t => k = size t /\ preorder t = take k pre
             | Raise e =>
                 (e = IndexError /\ k = length pre)
                 \/ (e = KeyError /\
                     exists j v, k = S j /\ pre !! j = Some v /\ v ∉ ino)
             | Stuck => False
             end).
Proof.
  split; [intros pre ino s1 s2; reflexivity|].
  intros pre ino s.
  pose proof (buildTree_not_Stuck pre ino s) as Hns.
  destruct (buildTree pre ino s) as [r s'] eqn:E. cbn [fst snd] in *.
  destruct r as [t|e|]; [| |congruence].
  - destruct (buildTree_Return_facts _ _ _ _ _ E) as (-> & Hp & Hsz & _).
    exists (size t). repeat split; (reflexivity || assumption || lia).
  - destruct (buildTree_Raise_facts _ _ _ _ _ E)
      as [[-> ->]|(-> & j & v & -> & Hv & Hno)].
    + exists (length pre). split; [reflexivity|]. split; [lia|].
      left. split; reflexivity.
    + exists (S j). split; [reflexivity|].
      split; [apply lookup_lt_Some in Hv; lia|].
      right. split; [reflexivity|]. exists j, v. auto.
Qed.

(** *** Approach 1 *)

(** X5: the dictionary built from [inorder] sends each value to the index
    of its last occurrence, and has no other keys. *)
Theorem index_map_last_occurrence (inorder : list Z) (v : Z) :
  (forall j, index_map inorder !! v = Some j <->
     exists i, j = Z.of_nat i /\ inorder !! i = Some v
               /\ v ∉ drop (S i) inorder)
  /\ (index_map inorder !! v = None <-> v ∉ inorder).
Proof.
  split; [|apply index_map_None]. intros j. split.
  - apply index_map_Some_last.
  - intros (i & -> & Hi & Hlast).
    destruct (index_map inorder !! v) as [j'|] eqn:Hm.
    + destruct (index_map_Some_last _ _ _ Hm) as (i' & -> & Hi' & Hlast').
      do 2 f_equal. eapply last_occurrence_unique; eassumption.
    + exfalso. apply index_map_None in Hm. apply Hm.
      apply list_elem_of_lookup. exists i. exact Hi.
Qed.

(** X6: elements of [preorder] after a complete preorder traversal are
    ignored: [buildTree] returns the tree of the traversal and leaves the
    cursor at the length of [inorder], without looking at them. *)
Theorem buildTree_ignores_surplus (T : tree) (surplus : list Z)
    (s : Solution) :
  NoDup (preorder T) ->
  buildTree (preorder T ++ surplus) (inorder T) s =
  (Return T, mkSolution (Some (Z.of_nat (length (inorder T))))).
Proof.
  intros Hnd. unfold buildTree, bind, set_preorder_idx.
  rewrite (build_recursive_correct T _ (preorder T ++ surplus) (inorder T)
             [] surplus [] [] 0 _ 0).
  - rewrite length_inorder. reflexivity.
  - reflexivity.
  - rewrite app_nil_r. reflexivity.
  - apply NoDup_inorder. exact Hnd.
  - unfold recursion_fuel. rewrite length_app, length_preorder.
    pose proof (height_le_size T). lia.
  - reflexivity.
  - rewrite length_inorder. lia.
  - reflexivity.
Qed.

Lemma buildTree_ignores_surplus_witness :
  buildTree [2; 1; 3; 8; 9] [1; 2; 3] (mkSolution None) =
  (Return (TreeNode 2 (TreeNode 1 Empty Empty) (TreeNode 3 Empty Empty)),
   mkSolution (Some 3)).
Proof.
  apply (buildTree_ignores_surplus
           (TreeNode 2 (TreeNode 1 Empty Empty) (TreeNode 3 Empty Empty))
           [8; 9] (mkSolution None)).
  simpl. nodup_list.
Defined.

(** X7: on any input, a tree that [buildTree] returns has one node for each
    element of [preorder] it consumed, in preorder: its preorder traversal
    is the consumed prefix, the cursor is left at its size, it has at least
    as many nodes as [inorder] has elements, and all its keys occur in
    [inorder]. *)
Theorem buildTree_returns_consumed_prefix (pre ino : list Z)
    (s s' : Solution) (t : tree) :
  buildTree pre ino s = (Return t, s') ->
  s' = mkSolution (Some (Z.of_nat (size t)))
  /\ preorder t = take (size t) pre
  /\ (length ino <= size t <= length pre)%nat
  /\ forall x, x ∈ preorder t -> x ∈ ino.
Proof.
  intros H.
  destruct (buildTree_Return_facts pre ino s s' t H)
    as (Hs & Hp & Hsz & Hk & _).
  repeat split; (assumption || lia).
Qed.

Lemma buildTree_returns_consumed_prefix_witness :
  preorder (TreeNode 1 (TreeNode 3 (TreeNode 2 Empty (TreeNode 1 Empty Empty))
                                   Empty)
                       (TreeNode 3 Empty Empty))
  = take 5 [1; 3; 2; 1; 3; 7].
Proof.
  apply (buildTree_returns_consumed_prefix [1; 3; 2; 1; 3; 7] [2; 1; 3]
           (mkSolution None) (mkSolution (Some 5))).
  vm_compute. reflexivity.
Defined.

(** X8: when [preorder] is shorter than [inorder], [buildTree] raises an
    exception, whatever the two lists hold: it returns no tree. *)
Theorem buildTree_short_preorder_raises (pre ino : list Z) (s : Solution) :
  (length pre < length ino)%nat ->
  exists e, (buildTree pre ino s).1 = Raise e.
Proof.
  intros Hlt. pose proof (buildTree_not_Stuck pre ino s) as Hns.
  destruct (buildTree pre ino s) as [r s'] eqn:E. simpl in *.
  destruct r as [t|e|]; [|eauto|congruence].
  destruct (buildTree_Return_facts pre ino s s' t E) as (_ & _ & Hsz & _).
  lia.
Qed.

Lemma buildTree_short_preorder_raises_witness :
  exists e, (buildTree [2; 1] [1; 2; 3] (mkSolution None)).1 = Raise e.
Proof.
  apply (buildTree_short_preorder_raises [2; 1] [1; 2; 3] (mkSolution None)).
  simpl. lia.
Defined.

(** X9: on two lists of equal length, whatever they hold, a tree that
    [buildTree] returns has exactly [preorder] as its preorder traversal and
    [inorder] as its inorder traversal: with equal lengths a wrong tree is
    never returned. *)
Theorem buildTree_equal_length_sound (pre ino : list Z) (s s' : Solution)
    (t : tree) :
  length pre = length ino ->
  buildTree pre ino s = (Return t, s') ->
  preorder t = pre /\ inorder t = ino.
Proof.
  intros Hlen H.
  destruct (buildTree_Return_facts pre ino s s' t H)
    as (_ & Hp & Hsz & _ & Hi).
  split; [|apply Hi; lia].
  rewrite Hp. apply take_ge. lia.
Qed.

Lemma buildTree_equal_length_sound_witness :
  preorder (TreeNode 3 (TreeNode 9 Empty Empty)
              (TreeNode 20 (TreeNode 15 Empty Empty) (TreeNode 7 Empty Empty)))
  = [3; 9; 20; 15; 7]
  /\ inorder (TreeNode 3 (TreeNode 9 Empty Empty)
                (TreeNode 20 (TreeNode 15 Empty Empty)
                   (TreeNode 7 Empty Empty)))
     = [9; 3; 15; 20; 7].
Proof.
  apply (buildTree_equal_length_sound [3; 9; 20; 15; 7] [9; 3; 15; 20; 7]
           (mkSolution None) (mkSolution (Some 5))).
  - reflexivity.
  - vm_compute. reflexivity.
Defined.

(** X10: [buildTree] raises nothing but [KeyError] and [IndexError], and
    [IndexError] only with the cursor at the end of [preorder]: when all of
    [preorder] is consumed and the recursion asks for one more element. *)
Theorem buildTree_raises_only (pre ino : list Z) (s s' : Solution)
    (e : exn) :
  buildTree pre ino s = (Raise e, s') ->
  e = KeyError
  \/ (e = IndexError /\ s' = mkSolution (Some (Z.of_nat (length pre)))).
Proof.
  intros H.
  destruct (buildTree_Raise_facts pre ino s s' e H) as [[-> ->]|[-> _]];
    [right; split; reflexivity | left; reflexivity].
Qed.

Lemma buildTree_raises_only_witness :
  IndexError = KeyError
  \/ (IndexError = IndexError
      /\ mkSolution (Some 2) = mkSolution (Some (Z.of_nat (length [2; 1])))).
Proof.
  apply (buildTree_raises_only [2; 1] [1; 2; 3] (mkSolution None)).
  vm_compute. reflexivity.
Defined.

(** X11: when [buildTree] raises [KeyError], the element of [preorder] just
    before the cursor, the one consumed last, does not occur in
    [inorder]. *)
Theorem buildTree_KeyError_cause (pre ino : list Z) (s s' : Solution) :
  buildTree pre ino s = (Raise KeyError, s') ->
  exists k v, s' = mkSolution (Some (Z.of_nat (S k)))
              /\ pre !! k = Some v /\ v ∉ ino.
Proof.
  intros H.
  destruct (buildTree_Raise_facts pre ino s s' KeyError H)
    as [[? _]|[_ Hk]]; [discriminate | exact Hk].
Qed.

Lemma buildTree_KeyError_cause_witness :
  exists k v, mkSolution (Some 2) = mkSolution (Some (Z.of_nat (S k)))
              /\ [3; 9; 4] !! k = Some v /\ v ∉ [5; 3; 4].
Proof.
  apply (buildTree_KeyError_cause [3; 9; 4] [5; 3; 4] (mkSolution None)).
  vm_compute. reflexivity.
Defined.

(** X12: on two lists of equal length, [inorder] without duplicates,
    [buildTree] returns a tree exactly when the two lists are the preorder
    and inorder traversals of one tree. *)
Theorem buildTree_returns_iff_consistent (pre ino : list Z) (s : Solution) :
  length pre = length ino -> NoDup ino ->
  (exists t, (buildTree pre ino s).1 = Return t)
  <-> exists T, pre = preorder T /\ ino = inorder T.
Proof.
  intros Hlen Hnd. split.
  - intros [t Ht]. destruct (buildTree pre ino s) as [r s'] eqn:E.
    simpl in Ht. subst r.
    destruct (buildTree_Return_facts pre ino s s' t E)
      as (_ & Hp & Hsz & _ & Hi).
    exists t. split; [|symmetry; apply Hi; lia].
    rewrite Hp. symmetry. apply take_ge. lia.
  - intros (T & -> & ->). exists T.
    rewrite buildTree_traversals; [reflexivity|].
    rewrite preorder_inorder_perm. exact Hnd.
Qed.

Lemma buildTree_returns_iff_consistent_witness :
  (exists t, (buildTree [2; 1; 3] [1; 2; 3] (mkSolution None)).1 = Return t)
  <-> exists T, [2; 1; 3] = preorder T /\ [1; 2; 3] = inorder T.
Proof.
  apply (buildTree_returns_iff_consistent [2; 1; 3] [1; 2; 3]
           (mkSolution None)).
  - reflexivity.
  - nodup_list.
Defined.

(** *** Approach 2 *)

(** X13: on any input, a tree that [buildTree_v2] returns has exactly
    [inorder] as its inorder traversal and the first [len(inorder)]
    elements of [preorder] as its preorder traversal; the cursor is left at
    [len(inorder)]. *)
Theorem buildTree_v2_sound (pre ino : list Z) (s s' : Solution) (t : tree) :
  buildTree_v2 pre ino s = (Return t, s') ->
  inorder t = ino
  /\ preorder t = take (length ino) pre
  /\ (length ino <= length pre)%nat
  /\ s' = mkSolution (Some (Z.of_nat (length ino))).
Proof.
  intros H.
  destruct (buildTree_v2_Return_facts pre ino s s' t H)
    as (Hs & _ & Hi & Hp & Hlen).
  repeat split; assumption.
Qed.

Lemma buildTree_v2_sound_witness :
  inorder (TreeNode 3 Empty (TreeNode 3 Empty Empty)) = [3; 3].
Proof.
  apply (buildTree_v2_sound [3; 3; 5] [3; 3] (mkSolution None)
           (mkSolution (Some 2))).
  vm_compute. reflexivity.
Defined.

(** X14: [buildTree_v2] raises nothing but [ValueError] and [IndexError],
    and [IndexError] only with the cursor at the end of [preorder]. *)
Theorem buildTree_v2_raises_only (pre ino : list Z) (s s' : Solution)
    (e : exn) :
  buildTree_v2 pre ino s = (Raise e, s') ->
  e = ValueError
  \/ (e = IndexError /\ s' = mkSolution (Some (Z.of_nat (length pre)))).
Proof.
  intros H.
  destruct (buildTree_v2_Raise_facts pre ino s s' e H) as [[-> ->]| ->];
    [right; split; reflexivity | left; reflexivity].
Qed.

Lemma buildTree_v2_raises_only_witness :
  ValueError = ValueError
  \/ (ValueError = IndexError
      /\ mkSolution (Some 1) = mkSolution (Some (Z.of_nat (length [3; 9])))).
Proof.
  apply (buildTree_v2_raises_only [3; 9] [9; 4] (mkSolution None)).
  vm_compute. reflexivity.
Defined.

(** X15: on two lists of equal length, [inorder] without duplicates, the
    recursion with the dictionary and the recursion with the scan return
    the same trees: one returns a tree exactly when the other returns
    it. *)
Theorem buildTree_v2_agrees (pre ino : list Z) (s : Solution) (t : tree) :
  length pre = length ino -> NoDup ino ->
  (buildTree pre ino s).1 = Return t
  <-> (buildTree_v2 pre ino s).1 = Return t.
Proof.
  intros Hlen Hnd. split; intros Ht.
  - destruct (buildTree pre ino s) as [r s'] eqn:E. simpl in Ht. subst r.
    destruct (buildTree_Return_facts pre ino s s' t E)
      as (_ & Hp & Hsz & _ & Hi).
    assert (Hpre : pre = preorder t)
      by (rewrite Hp; symmetry; apply take_ge; lia).
    assert (Hino : ino = inorder t) by (symmetry; apply Hi; lia).
    rewrite Hpre, Hino. rewrite buildTree_v2_traversals; [reflexivity|].
    rewrite preorder_inorder_perm, <- Hino. exact Hnd.
  - destruct (buildTree_v2 pre ino s) as [r s'] eqn:E. simpl in Ht. subst r.
    destruct (buildTree_v2_Return_facts pre ino s s' t E)
      as (_ & _ & Hi & Hp & _).
    assert (Hpre : pre = preorder t)
      by (rewrite Hp; symmetry; apply take_ge; lia).
    rewrite Hpre, <- Hi. rewrite buildTree_traversals; [reflexivity|].
    rewrite preorder_inorder_perm, Hi. exact Hnd.
Qed.

Lemma buildTree_v2_agrees_witness :
  (buildTree [2; 1; 3] [1; 2; 3] (mkSolution None)).1
  = Return (TreeNode 2 (TreeNode 1 Empty Empty) (TreeNode 3 Empty Empty))
  <-> (buildTree_v2 [2; 1; 3] [1; 2; 3] (mkSolution None)).1
      = Return (TreeNode 2 (TreeNode 1 Empty Empty) (TreeNode 3 Empty Empty)).
Proof.
  apply (buildTree_v2_agrees [2; 1; 3] [1; 2; 3] (mkSolution None)).
  - reflexivity.
  - nodup_list.
Defined.

(** *** The builder and the validator together *)

(** X16: on two lists of equal length, the tree that [buildTree] returns is
    accepted by [isValidBST] exactly when [inorder] is strictly
    increasing. *)
Theorem buildTree_result_valid_iff (pre ino : list Z) (s s' : Solution)
    (t : tree) :
  length pre = length ino ->
  buildTree pre ino s = (Return t, s') ->
  Validator.isValidBST t = true <-> StronglySorted Z.lt ino.
Proof.
  intros Hlen H.
  destruct (buildTree_Return_facts pre ino s s' t H)
    as (_ & _ & Hsz & _ & Hi).
  rewrite <- (Hi ltac:(lia)).
  rewrite ValidatorFacts.isValidBST_rec. apply ValidatorExtra.bst_rec_sorted.
Qed.

Lemma buildTree_result_valid_iff_witness :
  Validator.isValidBST
    (TreeNode 2 (TreeNode 1 Empty Empty) (TreeNode 3 Empty Empty)) = true
  <-> StronglySorted Z.lt [1; 2; 3].
Proof.
  apply (buildTree_result_valid_iff [2; 1; 3] [1; 2; 3] (mkSolution None)
           (mkSolution (Some 3))).
  - reflexivity.
  - vm_compute. reflexivity.
Defined.

(** *** Approach 3 on arbitrary input *)

Import V3Spec.

(** What the inner loop leaves: it popped some references [Q] off the top,
    the last of them is [parent], and the cursor moved by their number. *)
Lemma pop_matching_suffix (h : list node) (ino : list Z) (stack : list nat) :
  forall (parent : option nat) (k : Z) (stack' : list nat)
         (parent' : option nat) (k' : Z),
    pop_matching h ino stack parent k = Return (stack', parent', k') ->
    exists Q, stack = Q ++ stack'
              /\ parent' = from_option Some parent (last Q)
              /\ k' = k + Z.of_nat (length Q).
Proof.
  induction stack as [|top rest IH]; intros parent k stack' parent' k' H;
    simpl in H.
  - injection H as <- <- <-. exists []. simpl. split; [reflexivity|].
    split; [reflexivity | lia].
  - destruct (h !! top) as [o|]; [|discriminate].
    destruct (getitem ino k) as [x|e|]; simpl in H; try discriminate.
    destruct (val o =? x).
    + apply IH in H as (Q & -> & -> & ->). exists (top :: Q).
      split; [reflexivity|]. split; [|rewrite length_cons; lia].
      destruct Q as [|q Q]; [reflexivity|].
      rewrite last_cons_cons.
      destruct (last (q :: Q)) eqn:E; [reflexivity|].
      apply last_None in E. discriminate.
    + injection H as <- <- <-. exists []. simpl. split; [reflexivity|].
      split; [reflexivity | lia].
Qed.

(** The inner loop reads [inorder] only at positions below the cursor plus
    the height of the stack. *)
Lemma pop_matching_returns (h : list node) (ino : list Z) (stack : list nat) :
  forall (parent : option nat) (k : nat),
    Forall (fun p => (p < length h)%nat) stack ->
    (k + length stack <= length ino)%nat ->
    exists res, pop_matching h ino stack parent (Z.of_nat k) = Return res.
Proof.
  induction stack as [|top rest IH]; intros parent k Hst Hlen; simpl.
  - eexists; reflexivity.
  - apply Forall_cons in Hst as [Htop Hrest].
    destruct (lookup_lt_is_Some_2 h top Htop) as [o Ho]. rewrite Ho.
    simpl in Hlen.
    destruct (lookup_lt_is_Some_2 ino k ltac:(lia)) as [x Hx].
    rewrite (getitem_lookup _ _ _ Hx). simpl.
    destruct (val o =? x); [|eexists; reflexivity].
    replace (Z.of_nat k + 1) with (Z.of_nat (S k)) by lia.
    apply IH; [exact Hrest | lia].
Qed.

Lemma build_loop_returns (ino todo : list Z) :
  forall (h : list node) (stack : list nat) (k : nat),
    stack <> [] ->
    Forall (fun p => (p < length h)%nat) stack ->
    (k + length stack)%nat = length h ->
    (length h + length todo <= S (length ino))%nat ->
    exists res, build_loop ino todo h stack (Z.of_nat k) = Return res.
Proof.
  induction todo as [|x todo IH]; intros h stack k Hne Hst Hk Hlen;
    [eexists; reflexivity|].
  cbn [build_loop new_TreeNode]. simpl in Hlen.
  assert (Hst1 : Forall (fun p => (p < length (h ++ [mkNode x None None]))%nat)
                   stack).
  { eapply Forall_impl; [exact Hst|]. intros p Hp. cbv beta in Hp.
    rewrite length_app. simpl. lia. }
  destruct (pop_matching_returns (h ++ [mkNode x None None]) ino stack None k
              Hst1 ltac:(lia)) as ([[stack' parent'] k'] & Hpop).
  rewrite Hpop. cbn [obind].
  destruct (pop_matching_suffix _ _ _ _ _ _ _ _ Hpop) as (Q & HQ & Hpar & Hk').
  assert (Hst' : Forall (fun p => (p < length h)%nat) stack').
  { rewrite HQ in Hst. apply Forall_app in Hst as [_ H]. exact H. }
  assert (Hnew : forall h2, length h2 = S (length h) ->
            exists res, build_loop ino todo h2 (length h :: stack') k'
                        = Return res).
  { intros h2 Hh2.
    replace k' with (Z.of_nat (k + length Q)) by lia.
    apply IH.
    - discriminate.
    - constructor; [lia|]. eapply Forall_impl; [exact Hst'|].
      intros p Hp. cbv beta in Hp. lia.
    - rewrite HQ, length_app in Hk. simpl. lia.
    - lia. }
  destruct parent' as [p|].
  - cbn [obind]. apply Hnew. unfold set_right.
    rewrite length_alter, length_app. simpl. lia.
  - destruct Q as [|q Q].
    + simpl in HQ. subst stack'. destruct stack as [|top rest]; [congruence|].
      cbn [obind]. apply Hnew. unfold set_left.
      rewrite length_alter, length_app. simpl. lia.
    + exfalso. simpl in Hpar.
      destruct (last (q :: Q)) eqn:E; [simpl in Hpar; discriminate|].
      apply last_None in E. discriminate.
Qed.

(** X17: when [inorder] has at least [len(preorder) - 1] elements,
    [buildTree_v3] raises nothing, whatever the two lists hold: it never
    reads [inorder] past that position and checks nothing else. *)
Theorem buildTree_v3_never_raises (pre ino : list Z) :
  (length pre <= S (length ino))%nat ->
  exists res, buildTree_v3 pre ino = Return res.
Proof.
  intros Hlen. destruct pre as [|v todo]; [eexists; reflexivity|].
  cbn [buildTree_v3 new_TreeNode app length].
  destruct (build_loop_returns ino todo [mkNode v None None] [0%nat] 0)
    as ([[h' st'] k'] & H).
  - discriminate.
  - constructor; [simpl; lia | constructor].
  - reflexivity.
  - simpl in *. lia.
  - change (Z.of_nat 0) with 0 in H. rewrite H. eexists; reflexivity.
Qed.

Lemma buildTree_v3_never_raises_witness :
  exists res, buildTree_v3 [1; 2; 3] [7; 8] = Return res.
Proof.
  apply (buildTree_v3_never_raises [1; 2; 3] [7; 8]). simpl. lia.
Defined.

(** *** The tree under construction in approach 3 *)

Lemma length_chain_heap (c : list (Z * tree)) :
  forall b, length (chain_heap b c) = chain_size c.
Proof.
  induction c as [|[v l] c IH]; intros b; simpl; [reflexivity|].
  rewrite length_app, length_layout, IH. reflexivity.
Qed.

Lemma chain_size_app (c1 c2 : list (Z * tree)) :
  chain_size (c1 ++ c2) = (chain_size c1 + chain_size c2)%nat.
Proof.
  induction c1 as [|[v l] c1 IH]; simpl; [reflexivity|]. rewrite IH. lia.
Qed.

Lemma chain_keys_app (c1 c2 : list (Z * tree)) :
  chain_keys (c1 ++ c2) = chain_keys c1 ++ chain_keys c2.
Proof.
  induction c1 as [|[v l] c1 IH]; simpl; [reflexivity|].
  rewrite IH, <- app_assoc. reflexivity.
Qed.

Lemma chain_heap_app (c1 c2 : list (Z * tree)) :
  forall b, chain_heap b (c1 ++ c2) =
            chain_heap b c1 ++ chain_heap (b + chain_size c1) c2.
Proof.
  induction c1 as [|[v l] c1 IH]; intros b; simpl.
  - rewrite Nat.add_0_r. reflexivity.
  - rewrite IH, <- app_assoc.
    replace (S (b + size l) + chain_size c1)%nat
      with (b + S (size l + chain_size c1))%nat by lia.
    reflexivity.
Qed.

Lemma plug_nonempty (c : list (Z * tree)) (t : tree) :
  t <> Empty -> plug c t <> Empty.
Proof. destruct c as [|[v l] c]; simpl; [auto | discriminate]. Qed.

Lemma child_nonempty (t : tree) (p : nat) : t <> Empty -> child t p = Some p.
Proof. destruct t; [congruence | reflexivity]. Qed.

Lemma size_plug (c : list (Z * tree)) (t : tree) :
  size (plug c t) = (chain_size c + size t)%nat.
Proof.
  induction c as [|[v l] c IH]; simpl; [reflexivity|]. rewrite IH. lia.
Qed.

Lemma preorder_plug (c : list (Z * tree)) (t : tree) :
  preorder (plug c t) = chain_keys c ++ preorder t.
Proof.
  induction c as [|[v l] c IH]; simpl; [reflexivity|].
  rewrite IH, <- app_assoc. reflexivity.
Qed.

(** A chain is laid out node by node, each followed by its left subtree;
    what ends the chain comes last. *)
Lemma layout_plug (c : list (Z * tree)) :
  forall (b : nat) (t : tree),
    t <> Empty ->
    layout b (plug c t) = chain_heap b c ++ layout (b + chain_size c) t.
Proof.
  induction c as [|[v l] c IH]; intros b t Ht; simpl.
  - rewrite Nat.add_0_r. reflexivity.
  - rewrite (child_nonempty (plug c t)) by (apply plug_nonempty; exact Ht).
    rewrite (IH _ t Ht), <- app_assoc.
    replace (S (b + size l) + chain_size c)%nat
      with (b + S (size l + chain_size c))%nat by lia.
    reflexivity.
Qed.

Lemma size_close_frames (fs : list (list (Z * tree) * Z)) :
  size (close_frames fs) = frames_size fs.
Proof.
  induction fs as [|[c v] fs IH]; simpl; [reflexivity|].
  rewrite size_plug. simpl. rewrite IH. lia.
Qed.

Lemma preorder_close_frames (fs : list (list (Z * tree) * Z)) :
  preorder (close_frames fs) = frames_keys fs.
Proof.
  induction fs as [|[c v] fs IH]; simpl; [reflexivity|].
  rewrite preorder_plug. simpl. rewrite IH, app_nil_r. reflexivity.
Qed.

Lemma close_frames_nonempty (fs : list (list (Z * tree) * Z)) :
  fs <> [] -> close_frames fs <> Empty.
Proof.
  destruct fs as [|[c v] fs]; [congruence|]. intros _. simpl.
  apply plug_nonempty. discriminate.
Qed.

Lemma child_close_frames (fs : list (list (Z * tree) * Z)) (p : nat) :
  child (close_frames fs) p =
  if match fs with [] => false | _ :: _ => true end then Some p else None.
Proof.
  destruct fs as [|f fs]; [reflexivity|].
  apply child_nonempty, close_frames_nonempty. discriminate.
Qed.

(** Between two turns of the [for] loop the heap is the layout of the tree
    the frames describe. *)
Lemma open_heap_closed (fs : list (list (Z * tree) * Z)) :
  forall b, open_heap b fs false = layout b (close_frames fs).
Proof.
  induction fs as [|[c v] fs IH]; intros b; [reflexivity|].
  cbn [open_heap close_frames].
  rewrite layout_plug by discriminate.
  rewrite layout_node. cbn [layout child]. rewrite app_nil_r.
  rewrite child_close_frames, IH. reflexivity.
Qed.

Lemma length_open_heap (fs : list (list (Z * tree) * Z)) :
  forall b more, length (open_heap b fs more) = frames_size fs.
Proof.
  induction fs as [|[c v] fs IH]; intros b more; [reflexivity|].
  cbn [open_heap frames_size].
  rewrite length_app, length_chain_heap, length_cons, IH. reflexivity.
Qed.

Lemma frames_size_app (fs1 fs2 : list (list (Z * tree) * Z)) :
  frames_size (fs1 ++ fs2) = (frames_size fs1 + frames_size fs2)%nat.
Proof.
  induction fs1 as [|[c v] fs1 IH]; simpl; [reflexivity|]. rewrite IH. lia.
Qed.

Lemma frames_keys_app (fs1 fs2 : list (list (Z * tree) * Z)) :
  frames_keys (fs1 ++ fs2) = frames_keys fs1 ++ frames_keys fs2.
Proof.
  induction fs1 as [|[c v] fs1 IH]; simpl; [reflexivity|].
  rewrite IH, <- app_assoc. reflexivity.
Qed.

Lemma length_frames_addrs (fs : list (list (Z * tree) * Z)) :
  forall b, length (frames_addrs b fs) = length fs.
Proof.
  induction fs as [|[c v] fs IH]; intros b; simpl; [reflexivity|].
  rewrite IH. reflexivity.
Qed.

Lemma frames_addrs_app (fs1 fs2 : list (list (Z * tree) * Z)) :
  forall b, frames_addrs b (fs1 ++ fs2) =
            frames_addrs b fs1 ++ frames_addrs (b + frames_size fs1) fs2.
Proof.
  induction fs1 as [|[c v] fs1 IH]; intros b; simpl.
  - rewrite Nat.add_0_r. reflexivity.
  - rewrite IH.
    replace (S (b + chain_size c) + frames_size fs1)%nat
      with (b + (chain_size c + S (frames_size fs1)))%nat by lia.
    reflexivity.
Qed.

Lemma open_heap_app (fs1 fs2 : list (list (Z * tree) * Z)) :
  forall b more,
    open_heap b (fs1 ++ fs2) more =
    open_heap b fs1 (match fs2 with [] => more | _ :: _ => true end)
    ++ open_heap (b + frames_size fs1) fs2 more.
Proof.
  induction fs1 as [|[c v] fs1 IH]; intros b more.
  - simpl. rewrite Nat.add_0_r. reflexivity.
  - cbn [app open_heap frames_size]. rewrite IH, <- app_assoc.
    replace (S (b + chain_size c) + frames_size fs1)%nat
      with (b + (chain_size c + S (frames_size fs1)))%nat by lia.
    destruct fs1 as [|f1 fs1], fs2 as [|f2 fs2]; reflexivity.
Qed.

(** A stack that splits in two splits the frames in two. *)
Lemma frames_addrs_split (fs : list (list (Z * tree) * Z)) (b : nat)
    (A1 A2 : list nat) :
  frames_addrs b fs = A1 ++ A2 ->
  exists fs1 fs2,
    fs = fs1 ++ fs2
    /\ frames_addrs b fs1 = A1
    /\ frames_addrs (b + frames_size fs1) fs2 = A2.
Proof.
  intros H.
  assert (Hlen : length fs = (length A1 + length A2)%nat).
  { rewrite <- (length_frames_addrs fs b), H, length_app. reflexivity. }
  exists (take (length A1) fs), (drop (length A1) fs).
  split; [symmetry; apply take_drop|].
  rewrite <- (take_drop (length A1) fs), frames_addrs_app in H.
  apply app_inj_1 in H; [exact H|].
  rewrite length_frames_addrs, length_take. lia.
Qed.

Lemma set_right_at (H0 H2 : list node) (v : Z) (lo ro : option nat)
    (p n : nat) :
  p = length H0 ->
  set_right (H0 ++ mkNode v lo ro :: H2) p n =
  H0 ++ mkNode v lo (Some n) :: H2.
Proof. intros ->. apply set_right_middle. Qed.

(** The turn of the [for] loop that finds nothing to pop: the new node
    becomes the left child of the node on top of the stack. *)
Lemma attach_left (fs : list (list (Z * tree) * Z)) (x : Z) :
  fs <> [] ->
  exists top rest,
    reverse (frames_addrs 0 fs) = top :: rest
    /\ set_left (open_heap 0 fs false ++ [mkNode x None None]) top
         (length (open_heap 0 fs false)) =
       open_heap 0 (fs ++ [([], x)]) false
    /\ length (open_heap 0 fs false) :: top :: rest =
       reverse (frames_addrs 0 (fs ++ [([], x)])).
Proof.
  intros Hne.
  destruct (exists_last Hne) as (fs0 & [c v] & ->).
  set (b := frames_size fs0).
  set (a := (b + chain_size c)%nat).
  exists a, (reverse (frames_addrs 0 fs0)).
  assert (Haddr : frames_addrs 0 (fs0 ++ [(c, v)]) =
                  frames_addrs 0 fs0 ++ [a]).
  { rewrite frames_addrs_app. reflexivity. }
  assert (Hlen : length (open_heap 0 (fs0 ++ [(c, v)]) false) = S a).
  { rewrite length_open_heap, frames_size_app. simpl. unfold a, b. lia. }
  split; [rewrite Haddr, reverse_snoc; reflexivity|].
  split.
  - rewrite Hlen.
    rewrite (open_heap_app (fs0 ++ [(c, v)]) [([], x)]).
    rewrite !(open_heap_app fs0 [(c, v)]).
    cbn [open_heap chain_heap chain_size app]. fold b.
    rewrite Nat.add_0_l. fold a.
    rewrite <- !app_assoc. cbn [app].
    rewrite (app_assoc (open_heap 0 fs0 true)).
    replace a with (length (open_heap 0 fs0 true ++ chain_heap b c)) at 1
      by (rewrite length_app, length_open_heap, length_chain_heap;
          reflexivity).
    rewrite set_left_middle, <- app_assoc. reflexivity.
  - rewrite Hlen, (frames_addrs_app (fs0 ++ [(c, v)]) [([], x)]).
    cbn [frames_addrs chain_size].
    rewrite reverse_snoc, Haddr, reverse_snoc. f_equal.
    rewrite frames_size_app. simpl. unfold a, b. lia.
Qed.

(** The turn of the [for] loop that pops the frames [fq] and, last, the
    node [v]: [v] is finished, with what [fq] describes as its left
    subtree, and the new node becomes its right child. *)
Lemma attach_right (fs1 fq : list (list (Z * tree) * Z))
    (c : list (Z * tree)) (v x : Z) :
  let fs := fs1 ++ (c, v) :: fq in
  let fs' := fs1 ++ [(c ++ [(v, close_frames fq)], x)] in
  let a := (frames_size fs1 + chain_size c)%nat in
  set_right (open_heap 0 fs false ++ [mkNode x None None]) a
    (length (open_heap 0 fs false)) =
  open_heap 0 fs' false
  /\ length (open_heap 0 fs false) :: reverse (frames_addrs 0 fs1) =
     reverse (frames_addrs 0 fs')
  /\ frames_keys fs' = frames_keys fs ++ [x].
Proof.
  intros fs fs' a. subst fs fs'.
  set (b := frames_size fs1). fold b in a.
  set (T := close_frames fq).
  assert (Hlen : length (open_heap 0 (fs1 ++ (c, v) :: fq) false) =
                 (S a + size T)%nat).
  { rewrite length_open_heap, frames_size_app. unfold T.
    rewrite size_close_frames. simpl. unfold a, b. lia. }
  split; [|split].
  - rewrite Hlen.
    rewrite (open_heap_app fs1 ((c, v) :: fq)).
    rewrite (open_heap_app fs1 [(c ++ [(v, T)], x)]).
    cbn [open_heap]. rewrite Nat.add_0_l. fold b. fold a.
    rewrite chain_heap_app. fold a. cbn [chain_heap].
    rewrite open_heap_closed. fold T.
    rewrite <- (child_close_frames fq (S a)). fold T.
    rewrite <- !app_assoc. cbn [app].
    rewrite !app_nil_r.
    rewrite (app_assoc (open_heap 0 fs1 true)).
    rewrite (set_right_at _ _ _ _ _ a)
      by (rewrite length_app, length_open_heap, length_chain_heap;
          reflexivity).
    rewrite <- !app_assoc. reflexivity.
  - rewrite Hlen, frames_addrs_app. cbn [frames_addrs].
    rewrite reverse_snoc, chain_size_app. simpl. f_equal.
    unfold a, b. lia.
  - rewrite !frames_keys_app. simpl.
    rewrite chain_keys_app. simpl. fold T. unfold T.
    rewrite preorder_close_frames, <- !app_assoc. simpl.
    rewrite <- !app_assoc. reflexivity.
Qed.

(** The [for] loop keeps the heap and the stack in this shape, whatever
    [inorder] makes it pop, and adds to the tree the keys it processes, in
    the order it meets them. *)
Lemma build_loop_frames (ino todo : list Z) :
  forall (fs : list (list (Z * tree) * Z)) (k : Z)
         (h' : list node) (st' : list nat) (k' : Z),
    fs <> [] ->
    build_loop ino todo (open_heap 0 fs false)
      (reverse (frames_addrs 0 fs)) k = Return (h', st', k') ->
    exists fs',
      fs' <> []
      /\ h' = open_heap 0 fs' false
      /\ st' = reverse (frames_addrs 0 fs')
      /\ frames_keys fs' = frames_keys fs ++ todo.
Proof.
  induction todo as [|x todo IH]; intros fs k h' st' k' Hne H.
  - injection H as <- <- <-. exists fs. rewrite app_nil_r. auto.
  - cbn [build_loop new_TreeNode] in H.
    destruct (pop_matching _ ino _ None k) as [[[stack1 parent1] k1]|e|]
      eqn:Hpop; cbn [obind] in H; try discriminate.
    destruct (pop_matching_suffix _ _ _ _ _ _ _ _ Hpop)
      as (Q & HQ & Hpar & _).
    destruct Q as [|q Q].
    + simpl in HQ, Hpar. subst stack1 parent1.
      destruct (attach_left fs x Hne) as (top & rest & Hst & Hheap & Hst').
      rewrite Hst in H. cbn [obind] in H.
      rewrite Hheap, Hst' in H.
      apply IH in H as (fs' & Hne' & -> & -> & Hkeys);
        [|intros E; apply app_eq_nil in E as [_ E]; discriminate].
      exists fs'. rewrite Hkeys, frames_keys_app, <- app_assoc.
      repeat split; try assumption; reflexivity.
    + assert (Haddrs : frames_addrs 0 fs =
                       reverse stack1 ++ reverse (q :: Q)).
      { rewrite <- reverse_app, <- HQ, reverse_involutive. reflexivity. }
      apply frames_addrs_split in Haddrs as (fs1 & fs2 & -> & Hs1 & Hs2).
      destruct fs2 as [|[c v] fq].
      { apply (f_equal length) in Hs2.
        rewrite length_reverse in Hs2. simpl in Hs2. lia. }
      cbn [frames_addrs Nat.add] in Hs2.
      assert (Hlast : last (q :: Q) =
                      Some (frames_size fs1 + chain_size c)%nat).
      { rewrite <- head_reverse, <- Hs2. reflexivity. }
      rewrite Hlast in Hpar. simpl in Hpar. subst parent1.
      assert (Hst1 : stack1 = reverse (frames_addrs 0 fs1)).
      { rewrite Hs1, reverse_involutive. reflexivity. }
      subst stack1. cbn [obind] in H.
      destruct (attach_right fs1 fq c v x) as (Hheap & Hst' & Hkeys).
      rewrite Hheap, Hst' in H.
      apply IH in H as (fs' & Hne' & -> & -> & Hkeys');
        [|intros E; apply app_eq_nil in E as [_ E]; discriminate].
      exists fs'. rewrite Hkeys', Hkeys, <- app_assoc.
      repeat split; try assumption; reflexivity.
Qed.

(** The loops of approach 3 raise nothing but the [IndexError] of
    [inorder[inorder_idx]]. *)
Lemma pop_matching_Raise (h : list node) (ino : list Z) (stack : list nat) :
  forall (parent : option nat) (k : Z) (e : exn),
    pop_matching h ino stack parent k = Raise e -> e = IndexError.
Proof.
  induction stack as [|top rest IH]; intros parent k e H; simpl in H;
    [discriminate|].
  destruct (h !! top) as [o|]; [|discriminate].
  unfold getitem in H.
  destruct ((_ <? 0) || _); simpl in H; [congruence|].
  destruct (ino !! _); simpl in H; [|congruence].
  destruct (val o =? _); [|discriminate].
  apply IH in H. exact H.
Qed.

Lemma build_loop_Raise (ino todo : list Z) :
  forall (h : list node) (stack : list nat) (k : Z) (e : exn),
    build_loop ino todo h stack k = Raise e -> e = IndexError.
Proof.
  induction todo as [|x todo IH]; intros h stack k e H; [discriminate|].
  cbn [build_loop new_TreeNode] in H.
  destruct (pop_matching _ ino stack None k) as [[[stack1 parent1] k1]|e1|]
    eqn:Hpop; cbn [obind] in H; try discriminate.
  - destruct parent1 as [p|]; cbn [obind] in H.
    + apply IH in H. exact H.
    + destruct stack1 as [|top rest]; cbn [obind] in H.
      * congruence.
      * apply IH in H. exact H.
  - apply pop_matching_Raise in Hpop. congruence.
Qed.

(** The objects of a layout hold the keys of the tree in preorder. *)
Lemma fmap_val_layout (t : tree) :
  forall b, val <$> layout b t = preorder t.
Proof.
  induction t as [|v l IHl r IHr]; intros b; [reflexivity|].
  rewrite layout_node. cbn [preorder].
  rewrite fmap_cons, fmap_app, IHl, IHr. reflexivity.
Qed.

(** What approach 3 returns, on any input: the objects of a tree [t], laid
    out in the order they were created, and the reference to the first of
    them. *)
Lemma buildTree_v3_Return_facts (pre ino : list Z)
    (res : option nat * list node) :
  buildTree_v3 pre ino = Return res ->
  exists t, res = (child t 0%nat, layout 0 t) /\ preorder t = pre.
Proof.
  intros H. destruct pre as [|v todo].
  - injection H as <-. exists Empty. split; reflexivity.
  - cbn [buildTree_v3 new_TreeNode app length] in H.
    destruct (build_loop ino todo _ _ 0) as [[[h' st'] k']|e|] eqn:Hloop;
      cbn [obind] in H; try discriminate.
    injection H as <-.
    apply (build_loop_frames ino todo [([], v)]) in Hloop
      as (fs' & Hne & -> & _ & Hkeys); [|discriminate].
    exists (close_frames fs'). split.
    + rewrite open_heap_closed.
      rewrite (child_nonempty (close_frames fs') 0%nat)
        by (apply close_frames_nonempty; exact Hne).
      reflexivity.
    + rewrite preorder_close_frames, Hkeys. reflexivity.
Qed.

(** X18: whatever the two lists hold, what [buildTree_v3] returns is a
    tree with one node for each element of [preorder], and its preorder
    traversal is [preorder]; [inorder] only decides the shape.  The heap
    is exactly the layout of that tree: it holds one object for each
    element of [preorder], with that key and in that order, every object
    is the child of one object at most and is reached once from the root,
    and no reference dangles. *)
Theorem buildTree_v3_preorder (pre ino : list Z)
    (res : option nat * list node) :
  buildTree_v3 pre ino = Return res ->
  exists t, res = (child t 0%nat, layout 0 t)
            /\ preorder t = pre
            /\ val <$> res.2 = pre
            /\ length res.2 = length pre
            /\ result_tree res = Some t.
Proof.
  intros H. apply buildTree_v3_Return_facts in H as (t & -> & Hpre).
  exists t. split; [reflexivity|]. split; [exact Hpre|]. cbn [snd].
  split; [rewrite fmap_val_layout; exact Hpre|].
  split; [rewrite length_layout, <- Hpre, length_preorder; reflexivity|].
  apply result_tree_layout.
Qed.

Lemma buildTree_v3_preorder_witness :
  exists t,
    (Some 0%nat,
     [mkNode 1 None (Some 1%nat); mkNode 2 None (Some 2%nat);
      mkNode 3 (Some 3%nat) None; mkNode 4 None None])
    = (child t 0%nat, layout 0 t)
    /\ preorder t = [1; 2; 3; 4]
    /\ val <$> [mkNode 1 None (Some 1%nat); mkNode 2 None (Some 2%nat);
                mkNode 3 (Some 3%nat) None; mkNode 4 None None]
       = [1; 2; 3; 4]
    /\ length [mkNode 1 None (Some 1%nat); mkNode 2 None (Some 2%nat);
               mkNode 3 (Some 3%nat) None; mkNode 4 None None]
       = length [1; 2; 3; 4]
    /\ result_tree (Some 0%nat,
                    [mkNode 1 None (Some 1%nat); mkNode 2 None (Some 2%nat);
                     mkNode 3 (Some 3%nat) None; mkNode 4 None None])
       = Some t.
Proof.
  apply (buildTree_v3_preorder [1; 2; 3; 4] [1; 2; 9]). reflexivity.
Defined.

(** X19: on lists of equal length that are not the two traversals of any
    tree, [buildTree_v3] reports nothing: it returns a tree whose preorder
    traversal is [preorder] and whose inorder traversal is not
    [inorder]. *)
Theorem buildTree_v3_accepts_inconsistent_input (pre ino : list Z) :
  length pre = length ino ->
  ~ (exists T, preorder T = pre /\ inorder T = ino) ->
  exists res t,
    buildTree_v3 pre ino = Return res
    /\ result_tree res = Some t
    /\ preorder t = pre
    /\ inorder t <> ino.
Proof.
  intros Hlen Hno.
  assert (Hret : exists res, buildTree_v3 pre ino = Return res).
  { destruct pre as [|v todo]; [eexists; reflexivity|].
    cbn [buildTree_v3 new_TreeNode app length].
    destruct (build_loop_returns ino todo [mkNode v None None] [0%nat] 0)
      as ([[h' st'] k'] & H).
    - discriminate.
    - constructor; [simpl; lia | constructor].
    - reflexivity.
    - simpl in *. lia.
    - change (Z.of_nat 0) with 0 in H. rewrite H. eexists; reflexivity. }
  destruct Hret as (res & Hres).
  destruct (buildTree_v3_Return_facts _ _ _ Hres) as (t & Ht & Hpre).
  exists res, t. split; [exact Hres|].
  split; [rewrite Ht; apply result_tree_layout|].
  split; [exact Hpre|].
  intros Hin. apply Hno. exists t. split; assumption.
Qed.

Lemma buildTree_v3_accepts_inconsistent_input_witness :
  exists res t,
    buildTree_v3 [1; 2; 3] [3; 1; 2] = Return res
    /\ result_tree res = Some t
    /\ preorder t = [1; 2; 3]
    /\ inorder t <> [3; 1; 2].
Proof.
  apply (buildTree_v3_accepts_inconsistent_input [1; 2; 3] [3; 1; 2]).
  - reflexivity.
  - intros (T & Hp & Hi).
    pose proof (buildTree_traversals T (mkSolution None)) as H.
    rewrite Hp, Hi in H.
    assert (Hnd : NoDup [1; 2; 3]) by nodup_list.
    specialize (H Hnd). vm_compute in H. discriminate.
Defined.

(** X20: [buildTree_v3] raises nothing but [IndexError], and raises it only
    when [inorder] has fewer than [len(preorder) - 1] elements. *)
Theorem buildTree_v3_raises_only (pre ino : list Z) (e : exn) :
  buildTree_v3 pre ino = Raise e ->
  e = IndexError /\ (S (length ino) < length pre)%nat.
Proof.
  intros H. destruct pre as [|v todo]; [discriminate|].
  cbn [buildTree_v3 new_TreeNode app length] in H.
  destruct (build_loop ino todo _ _ 0) as [[[h' st'] k']|e1|] eqn:Hloop;
    cbn [obind] in H; try discriminate.
  injection H as ->. split; [apply build_loop_Raise in Hloop; exact Hloop|].
  destruct (Nat.lt_ge_cases (S (length ino)) (length (v :: todo)))
    as [Hlt|Hge]; [exact Hlt|].
  destruct (build_loop_returns ino todo [mkNode v None None] [0%nat] 0)
    as (res & Hres).
  - discriminate.
  - constructor; [simpl; lia | constructor].
  - reflexivity.
  - simpl in *. lia.
  - change (Z.of_nat 0) with 0 in Hres. congruence.
Qed.

Lemma buildTree_v3_raises_only_witness :
  IndexError = IndexError /\ (S (length [1]) < length [1; 2; 3])%nat.
Proof.
  apply (buildTree_v3_raises_only [1; 2; 3] [1] IndexError). reflexivity.
Defined.

End BuilderExtra.
